(** * FastGrade: submission splitting, score aggregation, grading lifecycle

    A shallow embedding of the pure and effectful logic of the FastGrade
    front-end (App.jsx): [splitStudentsFromText], [calculateTotals],
    the "Total Score" cell of [exportCSV] and the record updates of
    [gradeOne].

    JavaScript strings are sequences of UTF-16 code units, numbers are
    IEEE 754 binary64 values, and property reads on [null]/[undefined]
    raise.  The embedding keeps all three. *)

From Stdlib Require Import String Ascii.
From Stdlib Require Import List NArith Arith Bool Lia.
From Stdlib Require Import PrimFloat.
From Stdlib Require DecimalString DecimalNat ZArith FloatAxioms.
Import ListNotations.

Set Implicit Arguments.
Set Warnings "-register-all,-inexact-float".

(** ** Strings *)

Module Str.

(** A UTF-16 code unit. *)
Definition char := N.
Definition jsstring := list char.

Local Open Scope N_scope.

Definition NL : char := 10.
Definition DASH : char := 45.

(** ASCII literals of the source, as code units. *)
Fixpoint lit (s : string) : jsstring :=
  match s with
  | EmptyString => []
  | String a r => N_of_ascii a :: lit r
  end.

(** [lines [l1; ...; ln]] is [l1 + "\n" + ... + "\n" + ln]. *)
Fixpoint lines (ls : list string) : jsstring :=
  match ls with
  | [] => []
  | [l] => lit l
  | l :: rest => lit l ++ NL :: lines rest
  end.

(** WhiteSpace and LineTerminator code points of ECMAScript: what [\s]
    matches and what [String.prototype.trim] strips. *)
Definition is_space (c : char) : bool :=
  (c =? 9) || (c =? 10) || (c =? 11) || (c =? 12) || (c =? 13) ||
  (c =? 32) || (c =? 160) || (c =? 5760) ||
  ((8192 <=? c) && (c <=? 8202)) ||
  (c =? 8232) || (c =? 8233) || (c =? 8239) || (c =? 8287) ||
  (c =? 12288) || (c =? 65279).

Definition is_digit (c : char) : bool := (48 <=? c) && (c <=? 57).

(** Canonicalize of a case-insensitive, non-unicode RegExp.  On code
    units below 128 it is ASCII upper-casing.  A code unit from 128 up is
    never canonicalized to one below 128, and every character of the
    pattern modelled here is ASCII, so leaving those code units alone
    gives the same matches. *)
Definition canonicalize (c : char) : char :=
  if (97 <=? c) && (c <=? 122) then c - 32 else c.

Fixpoint drop_spaces (s : jsstring) : jsstring :=
  match s with
  | [] => []
  | c :: s' => if is_space c then drop_spaces s' else s
  end.

(** [String.prototype.trim]. *)
Definition trim (s : jsstring) : jsstring :=
  rev (drop_spaces (rev (drop_spaces s))).

(** A string is truthy when it is not empty. *)
Definition nonempty (s : jsstring) : bool :=
  match s with [] => false | _ => true end.

End Str.

(** ** The regular expression of the splitter *)

Module Regex.
Import Str.
Local Open Scope N_scope.

(** One-character matchers. *)
Inductive atom :=
| Lit (c : char)     (* a pattern character, compared under /i *)
| Space              (* \s *)
| Digit.             (* \d *)

Definition atom_match (a : atom) (x : char) : bool :=
  match a with
  | Lit c => canonicalize x =? canonicalize c
  | Space => is_space x
  | Digit => is_digit x
  end.

(** The fragment of RegExp syntax the pattern uses.  Quantifiers are
    applied to single characters and classes only, as in the source. *)
Inductive regex :=
| Eps
| Atom (a : atom)
| Star (a : atom)               (* greedy a* *)
| Seq (r1 r2 : regex)
| Alt (r1 r2 : regex)
| Group (r : regex).            (* capture group 1 *)

Definition Plus (a : atom) : regex := Seq (Atom a) (Star a).

Fixpoint chars (c : char) (cs : jsstring) : regex :=
  match cs with
  | [] => Atom (Lit c)
  | c' :: cs' => Seq (Atom (Lit c)) (chars c' cs')
  end.

(** The characters of an ASCII literal, in sequence. *)
Definition word (s : string) : regex :=
  match lit s with
  | [] => Eps
  | c :: cs => chars c cs
  end.

(** [/\n\s*(Student:|Name:|Page \d+|-----+)\s*\n/i] *)
Definition delimiter_pattern : regex :=
  Seq (Atom (Lit NL))
   (Seq (Star Space)
    (Seq (Group
           (Alt (word "Student:")
            (Alt (word "Name:")
             (Alt (Seq (word "Page ") (Plus Digit))
                  (Seq (word "----") (Plus (Lit DASH)))))))
     (Seq (Star Space)
          (Atom (Lit NL))))).

Section Matcher.
Variable R : Type.

  (** A continuation receives the rest of the input and capture 1. *)
Definition cont := jsstring -> option jsstring -> option R.

  (** Greedy repetition: take one more character if possible, and fall
      back to the continuation when the longer attempt fails. *)
Fixpoint star_m (a : atom) (s : jsstring) (cap : option jsstring)
           (k : cont) : option R :=
    match s with
    | x :: s' =>
        if atom_match a x then
          match star_m a s' cap k with
          | Some r => Some r
          | None => k s cap
          end
        else k s cap
    | [] => k [] cap
    end.

  (** The backtracking matcher of the RegExp semantics, in continuation
      passing style: alternatives are tried left to right. *)
Fixpoint m (r : regex) (s : jsstring) (cap : option jsstring)
           (k : cont) : option R :=
    match r with
    | Eps => k s cap
    | Atom a =>
        match s with
        | x :: s' => if atom_match a x then k s' cap else None
        | [] => None
        end
    | Star a => star_m a s cap k
    | Seq r1 r2 => m r1 s cap (fun s' cap' => m r2 s' cap' k)
    | Alt r1 r2 =>
        match m r1 s cap k with
        | Some res => Some res
        | None => m r2 s cap k
        end
    | Group r1 =>
        m r1 s cap
          (fun s' _ => k s' (Some (firstn (length s - length s') s)))
    end.
End Matcher.

(** A sticky match of the pattern at the start of [s]: capture 1 and the
    input left after the match. *)
Definition exec_at (s : jsstring) : option (option jsstring * jsstring) :=
  m delimiter_pattern s None (fun s' cap => Some (cap, s')).

End Regex.

(** ** The splitter *)

Module Splitter.
Import Str Regex.

(** The value pushed for capture 1 ([undefined] never occurs: the group
    of the pattern is not optional, see [exec_at_captures]). *)
Definition capture_string (cap : option jsstring) : jsstring :=
  match cap with Some d => d | None => [] end.

(** The loop of [RegExp.prototype[@@split]]: [chunk] is [S[p..q)] and [s]
    is [S[q..)].  A match that ends at [p] is skipped.  The fuel is the
    number of code units left, which bounds the iterations. *)
Fixpoint split_loop (fuel : nat) (chunk s : jsstring) : list jsstring :=
  match s with
  | [] => [chunk]
  | x :: s' =>
      match fuel with
      | O => [chunk ++ s]
      | S fuel' =>
          match exec_at s with
          | Some (cap, rest) =>
              if Nat.eqb (length rest) (length chunk + length s)
              then split_loop fuel' (chunk ++ [x]) s'
              else chunk :: capture_string cap :: split_loop fuel' [] rest
          | None => split_loop fuel' (chunk ++ [x]) s'
          end
      end
  end.

(** [text.split(/.../i)] (no limit). *)
Definition js_split (text : jsstring) : list jsstring :=
  match text with
  | [] => match exec_at [] with Some _ => [] | None => [[]] end
  | _ => split_loop (length text) [] text
  end.

(** The number of matches a global search of the pattern finds in the
    text, scanning left to right and resuming after each match. *)
Fixpoint count_loop (fuel : nat) (s : jsstring) : nat :=
  match s with
  | [] => 0
  | x :: s' =>
      match fuel with
      | O => 0
      | S fuel' =>
          match exec_at s with
          | Some (_, rest) => S (count_loop fuel' rest)
          | None => count_loop fuel' s'
          end
      end
  end.

Definition delimiter_matches (text : jsstring) : nat :=
  count_loop (length text) text.

(** Delimiter tokens and the chunks after them, as they alternate in the
    array that [split] returns. *)
Fixpoint interleave (ms : list (jsstring * jsstring)) : list jsstring :=
  match ms with
  | [] => []
  | (d, body) :: ms' => d :: body :: interleave ms'
  end.

(** [.map((t) => t.trim()).filter((t) => t.length > 0)] *)
Definition has_length (t : jsstring) : bool := Nat.ltb 0 (length t).

Definition parts_of (text : jsstring) : list jsstring :=
  filter has_length (map trim (js_split text)).

(** [parts[i] + (parts[i + 1] ? "\n" + parts[i + 1] : "")] *)
Definition student_at (parts : list jsstring) (i : nat) : jsstring :=
  nth i parts [] ++
  match nth_error parts (i + 1) with
  | Some p => if nonempty p then NL :: p else []
  | None => []
  end.

(** [for (let i = 0; i < parts.length; i += 2) students.push(...)] *)
Fixpoint students_loop (fuel : nat) (parts : list jsstring) (i : nat)
         (students : list jsstring) : list jsstring :=
  match fuel with
  | O => students
  | S fuel' =>
      if Nat.ltb i (length parts)
      then students_loop fuel' parts (i + 2)
                         (students ++ [student_at parts i])
      else students
  end.

(** The grouping the loop performs, two parts at a time. *)
Fixpoint pair_up (parts : list jsstring) : list jsstring :=
  match parts with
  | [] => []
  | a :: rest =>
      match rest with
      | [] => [a]
      | b :: rest' => (a ++ if nonempty b then NL :: b else []) :: pair_up rest'
      end
  end.

Definition splitStudentsFromText (text : jsstring) : list jsstring :=
  let parts := parts_of text in
  if Nat.leb (length parts) 1 then [text]
  else students_loop (length parts) parts 0 [].

End Splitter.

(** ** The delimiter tokens, as the specification words them *)

Module Delimiter.
Import Str.
Local Open Scope N_scope.

(** Equality of a string with a literal up to ASCII case. *)
Fixpoint ci_eq (w l : jsstring) : bool :=
  match w, l with
  | [], [] => true
  | x :: w', c :: l' => (canonicalize x =? canonicalize c) && ci_eq w' l'
  | _, _ => false
  end.

(** [Page <number>]: the word, one blank, one or more decimal digits. *)
Definition page_marker (d : jsstring) : bool :=
  ci_eq (firstn 5 d) (lit "Page ") &&
  nonempty (skipn 5 d) && forallb is_digit (skipn 5 d).

(** A run of [n] or more dashes. *)
Definition dash_run (n : nat) (d : jsstring) : bool :=
  Nat.leb n (length d) && forallb (fun x => x =? DASH) d.

(** The tokens that delimit submissions: [Student:], [Name:],
    [Page <number>] or a run of five or more dashes, in any case. *)
Definition is_delimiter (d : jsstring) : bool :=
  ci_eq d (lit "Student:") || ci_eq d (lit "Name:") ||
  page_marker d || dash_run 5 d.


Definition blank (s : jsstring) : bool := forallb is_space s.


(** What the end of a delimiter line, white space and a newline, takes
    from the start of [s]: the white space up to its last newline.
    [gap s] is what is left, and [None] when the white space that starts
    [s] holds no newline. *)
Fixpoint gap (s : jsstring) : option jsstring :=
  match s with
  | [] => None
  | x :: s' =>
      if is_space x then
        match gap s' with
        | Some r => Some r
        | None => if x =? NL then Some s' else None
        end
      else None
  end.

(** The text after a delimiter line that is followed by [b]: blank lines
    at the start of [b] go with the delimiter line. *)
Definition after_gap (b : jsstring) : jsstring :=
  match gap b with
  | Some r => r
  | None => b
  end.


(** Every chunk but the last is not blank. *)
Fixpoint chunks_ok (ms : list (jsstring * jsstring)) : Prop :=
  match ms with
  | [] => True
  | (_, c) :: ms' =>
      match ms' with
      | [] => True
      | _ => blank c = false
      end /\ chunks_ok ms'
  end.

End Delimiter.

(** ** JavaScript values *)

Module Values.
Import Str.
Local Open Scope string_scope.
Local Open Scope list_scope.

(** What [JSON.parse] can return, and [undefined].  The fields of an
    object are its own properties; a key occurs once. *)
Inductive value :=
| VUndefined
| VNull
| VBool (b : bool)
| VNum (x : float)
| VStr (s : jsstring)
| VArr (items : list value)
| VObj (fields : list (string * value)).

Inductive error := TypeError.

(** A computation returns or throws. *)
Inductive outcome (A : Type) :=
| Ok (a : A)
| Throw (e : error).
Arguments Ok {A} a.
Arguments Throw {A} e.

Definition bind {A B : Type} (c : outcome A) (k : A -> outcome B) : outcome B :=
  match c with
  | Ok a => k a
  | Throw e => Throw e
  end.

Notation "x <- c ;; k" := (bind c (fun x => k))
  (at level 61, c at next level, right associativity).

(** Zero of either sign and NaN are the falsy numbers. *)
Definition truthy_number (x : float) : bool :=
  negb (PrimFloat.is_nan x || PrimFloat.is_zero x).

(** ToBoolean. *)
Definition truthy (v : value) : bool :=
  match v with
  | VUndefined | VNull => false
  | VBool b => b
  | VNum x => truthy_number x
  | VStr s => nonempty s
  | VArr _ | VObj _ => true
  end.

Fixpoint lookup (fields : list (string * value)) (key : string) : value :=
  match fields with
  | [] => VUndefined
  | (k, v) :: rest => if String.eqb k key then v else lookup rest key
  end.

Fixpoint has_key (fields : list (string * value)) (key : string) : bool :=
  match fields with
  | [] => false
  | (k, _) :: rest => String.eqb k key || has_key rest key
  end.

(** [v.key] for the property names the program reads (none of them is
    defined on a prototype): reading from [null] or [undefined] throws, an
    object answers with its own property, every other value with
    [undefined]. *)
Definition get (v : value) (key : string) : outcome value :=
  match v with
  | VUndefined | VNull => Throw TypeError
  | VObj fields => Ok (lookup fields key)
  | _ => Ok VUndefined
  end.

(** [v?.key] *)
Definition opt_get (v : value) (key : string) : value :=
  match v with
  | VObj fields => lookup fields key
  | _ => VUndefined
  end.

(** [v?.[0]] *)
Definition opt_first (v : value) : value :=
  match v with
  | VArr items => hd VUndefined items
  | VStr (c :: _) => VStr [c]
  | VObj fields => lookup fields "0"
  | _ => VUndefined
  end.

(** [a ?? b] *)
Definition nullish_or (a b : value) : value :=
  match a with
  | VUndefined | VNull => b
  | _ => a
  end.

(** [{ ...a, ...b }]: the properties of [b] replace those of [a]. *)
Definition spread (a b : value) : value :=
  match a, b with
  | VObj fa, VObj fb =>
      VObj (filter (fun kv => negb (has_key fb (fst kv))) fa ++ fb)
  | _, _ => b
  end.

(** The conversions between strings and numbers of the language, and
    [JSON.parse], are taken from the runtime. *)
Record Runtime := {
  NumberToString : float -> jsstring;     (* Number::toString *)
  StringToNumber : jsstring -> float;     (* ToNumber on a string *)
  parseFloatString : jsstring -> float;   (* parseFloat on a string *)
  JSON_parse : jsstring -> option value   (* None: SyntaxError *)
}.

(** A runtime for closed examples whose strings hold neither a number nor
    JSON text: no number starts such a string, [JSON.parse] refuses it,
    and the empty string converts to 0, as [Number("")] does.  The text of
    a number is left empty; the examples never read it back (it only
    shows in the status written by a timer tick). *)
Definition no_text_runtime : Runtime :=
  {| NumberToString := fun _ => [];
     StringToNumber :=
       fun s => match s with [] => PrimFloat.zero | _ => PrimFloat.nan end;
     parseFloatString := fun _ => PrimFloat.nan;
     JSON_parse := fun _ => None |}.

Section Conversions.
Variable rt : Runtime.

Definition COMMA : char := 44%N.

(** ToString.  An array is joined with commas, [null] and [undefined]
    items giving the empty string.  An object parsed from JSON holds no
    function: when it has an own [toString] property the conversion finds
    no method and throws, otherwise [Object.prototype.toString]
    answers. *)
Fixpoint ToString (v : value) : outcome jsstring :=
  match v with
  | VUndefined => Ok (lit "undefined")
  | VNull => Ok (lit "null")
  | VBool true => Ok (lit "true")
  | VBool false => Ok (lit "false")
  | VNum x => Ok (NumberToString rt x)
  | VStr s => Ok s
  | VArr items =>
      (fix join (l : list value) : outcome jsstring :=
         match l with
         | [] => Ok []
         | x :: r =>
             s <- match x with
                  | VUndefined | VNull => Ok []
                  | _ => ToString x
                  end ;;
             match r with
             | [] => Ok s
             | _ => t <- join r ;; Ok (s ++ COMMA :: t)
             end
         end) items
  | VObj fields =>
      if has_key fields "toString" then Throw TypeError
      else Ok (lit "[object Object]")
  end.

(** ToNumber. *)
Definition ToNumber (v : value) : outcome float :=
  match v with
  | VUndefined => Ok PrimFloat.nan
  | VNull => Ok PrimFloat.zero
  | VBool true => Ok PrimFloat.one
  | VBool false => Ok PrimFloat.zero
  | VNum x => Ok x
  | VStr s => Ok (StringToNumber rt s)
  | VArr _ | VObj _ => s <- ToString v ;; Ok (StringToNumber rt s)
  end.

(** [parseFloat(v)]: the number that starts the string of [v].  A number
    is read back from its own string as itself, minus zero as zero; the
    strings of [undefined], [null], the booleans and plain objects start
    with no number. *)
Definition parseFloat (v : value) : outcome float :=
  match v with
  | VNum x => Ok (if PrimFloat.is_zero x then PrimFloat.zero else x)
  | VUndefined | VNull | VBool _ => Ok PrimFloat.nan
  | VStr s => Ok (parseFloatString rt s)
  | VArr _ => s <- ToString v ;; Ok (parseFloatString rt s)
  | VObj fields =>
      if has_key fields "toString" then Throw TypeError else Ok PrimFloat.nan
  end.

End Conversions.

End Values.

(** ** The score aggregator *)

Module Aggregator.
Import Str Values.
Local Open Scope string_scope.
Local Open Scope list_scope.

(** [{ total, worth, pct }]; [worth] is whatever [testworth] held when
    that was truthy. *)
Record totals := {
  total : float;
  worth : value;
  pct : float
}.

(** What [console.warn] is given. *)
Inductive warning :=
| Mismatch (total_score : value) (recalculated : float).

Definition zeros : totals :=
  {| total := PrimFloat.zero; worth := VNum PrimFloat.zero;
     pct := PrimFloat.zero |}.

Section Totals.
Variable rt : Runtime.

(** [parseFloat(q[key]) || dflt] *)
Definition score_or (dflt : float) (key : string) (q : value) : outcome float :=
  v <- get q key ;;
  x <- parseFloat rt v ;;
  Ok (if truthy_number x then x else dflt).

(** [questions.reduce((sum, q) => sum + (parseFloat(q[key]) || dflt), 0)]
    on the items of an array. *)
Definition sum_items (dflt : float) (key : string) (items : list value)
  : outcome float :=
  fold_left (fun acc q => sum <- acc ;;
                          x <- score_or dflt key q ;;
                          Ok (PrimFloat.add sum x))
            items (Ok PrimFloat.zero).

(** [questions.reduce(...)]: only an array has the method. *)
Definition reduce_sum (dflt : float) (key : string) (questions : value)
  : outcome float :=
  match questions with
  | VArr items => sum_items dflt key items
  | _ => Throw TypeError
  end.

Definition hundred : float := 100%float.
Definition epsilon : float := 0.01%float.

Definition calculateTotals (result : value) : outcome (totals * list warning) :=
  if negb (truthy result) then Ok (zeros, [])
  else
    questions <- get result "questions" ;;
    if negb (truthy questions) then Ok (zeros, [])
    else
      total <- reduce_sum PrimFloat.zero "questionscore" questions ;;
      testworth <- get result "testworth" ;;
      worth <- (if truthy testworth then Ok testworth
                else s <- reduce_sum PrimFloat.one "maxscore" questions ;;
                     Ok (VNum s)) ;;
      w <- ToNumber rt worth ;;
      let pct := if PrimFloat.ltb PrimFloat.zero w
                 then PrimFloat.mul (PrimFloat.div total w) hundred
                 else PrimFloat.zero in
      total_score <- get result "total_score" ;;
      warned <- (if truthy total_score
                 then t <- ToNumber rt total_score ;;
                      Ok (if PrimFloat.ltb epsilon
                               (PrimFloat.abs (PrimFloat.sub t total))
                          then [Mismatch total_score total] else [])
                 else Ok []) ;;
      Ok ({| total := total; worth := worth; pct := pct |}, warned).

(** The "Total Score" cell of a row of [exportCSV]:
    [const { total } = calculateTotals(s.result || {})]. *)
Definition csv_total_score (s_result : value) : outcome float :=
  t <- calculateTotals (if truthy s_result then s_result else VObj []) ;;
  Ok (total (fst t)).

End Totals.

(** *** The aggregation as the specification words it *)

Section Worded.
Variable rt : Runtime.

Definition field (q : value) (key : string) : value := opt_get q key.

(** A score coerced to a number, a missing or non-numeric one to 0 (a
    zero of either sign is the number 0). *)
Definition coerced_score (q : value) : float :=
  match parseFloat rt (field q "questionscore") with
  | Ok x => if PrimFloat.is_nan x then PrimFloat.zero
            else if PrimFloat.is_zero x then PrimFloat.zero else x
  | Throw _ => PrimFloat.zero
  end.

(** A maximum coerced to a number, a missing one to 1. *)
Definition coerced_max (q : value) : float :=
  match field q "maxscore" with
  | VUndefined => PrimFloat.one
  | v => match parseFloat rt v with
         | Ok x => x
         | Throw _ => PrimFloat.nan
         end
  end.

(** What the program counts for a question without a usable maximum: a
    missing, non-numeric or zero [maxscore] is one point. *)
Definition counted_max (q : value) : float :=
  match parseFloat rt (field q "maxscore") with
  | Ok x => if PrimFloat.is_nan x then PrimFloat.one
            else if PrimFloat.is_zero x then PrimFloat.one else x
  | Throw _ => PrimFloat.one
  end.

Definition sum_of (f : value -> float) (items : list value) : float :=
  fold_left (fun sum q => PrimFloat.add sum (f q)) items PrimFloat.zero.

(** A score field read without a conversion method to look for. *)
Definition plain (v : value) : bool :=
  match v with
  | VArr _ | VObj _ => false
  | _ => true
  end.

(** An entry of the question list: an object whose scores are plain. *)
Definition is_question (q : value) : bool :=
  match q with
  | VObj _ => plain (field q "questionscore") && plain (field q "maxscore")
  | _ => false
  end.

End Worded.

End Aggregator.

(** ** The grading lifecycle *)

Module Grading.
Import Str Values.
Local Open Scope string_scope.
Local Open Scope list_scope.

(** The record made for a submission on upload or paste. *)
Definition new_student (name content : jsstring) : value :=
  VObj [("name", VStr name); ("content", VStr content); ("result", VNull);
        ("status", VStr (lit "idle")); ("gradedAt", VNull);
        ("elapsed", VNum PrimFloat.zero)].

(** [updated[index] = v] on a copy of the array.  Writing past the end
    extends the array; the places skipped are holes, which read as
    [undefined]. *)
Fixpoint set_index (l : list value) (i : nat) (v : value) : list value :=
  match i, l with
  | O, [] => [v]
  | O, _ :: r => v :: r
  | S i', [] => VUndefined :: set_index [] i' v
  | S i', x :: r => x :: set_index r i' v
  end.

(** The updater that [updateStudent(index, updates)] hands to
    [setStudents]. *)
Definition updateStudent (index : nat) (updates : value) (prev : list value)
  : list value :=
  set_index prev index (spread (nth index prev VUndefined) updates).

Definition BACKTICK : char := 96%N.

Definition is_letter (c : char) : bool :=
  ((65 <=? c) && (c <=? 90) || (97 <=? c) && (c <=? 122))%N.

Fixpoint drop_letters (s : jsstring) : jsstring :=
  match s with
  | [] => []
  | c :: s' => if is_letter c then drop_letters s' else s
  end.

(** [cleaned.replace(/^```[a-zA-Z]*\n?/, "")] on a string that starts
    with the three backticks. *)
Definition strip_opening (s : jsstring) : jsstring :=
  match drop_letters (skipn 3 s) with
  | c :: rest => if (c =? NL)%N then rest else c :: rest
  | [] => []
  end.

(** [cleaned.replace(/```$/, "")] *)
Definition strip_closing (s : jsstring) : jsstring :=
  match rev s with
  | a :: b :: c :: r =>
      if ((a =? BACKTICK) && (b =? BACKTICK) && (c =? BACKTICK))%N
      then rev r else s
  | _ => s
  end.

Definition starts_with_fence (s : jsstring) : bool :=
  match s with
  | a :: b :: c :: _ => ((a =? BACKTICK) && (b =? BACKTICK) && (c =? BACKTICK))%N
  | _ => false
  end.

(** The text handed to [JSON.parse]. *)
Definition cleaned_text (text : jsstring) : jsstring :=
  let cleaned := trim text in
  if starts_with_fence cleaned then strip_closing (strip_opening cleaned)
  else cleaned.

(** [data?.choices?.[0]?.message?.content ?? ""] *)
Definition reply_text (data : value) : value :=
  nullish_or
    (opt_get (opt_get (opt_first (opt_get data "choices")) "message") "content")
    (VStr []).

(** [{ error: "Could not parse GPT response", raw: text }] *)
Definition parse_error (text : value) : value :=
  VObj [("error", VStr (lit "Could not parse GPT response")); ("raw", text)].

(** What the endpoint answered: the status line, which the program never
    looks at, and what [response.json()] resolves to ([None]: it
    rejects). *)
Record response := {
  http_status : nat;
  json : option value
}.

(** What happens around one call of [gradeOne]. *)
Record run := {
  ticks_waiting : nat;          (* timer ticks while [fetch] is pending *)
  fetched : option response;    (* [None]: [fetch] rejects *)
  ticks_reading : nat;          (* timer ticks while the body is read *)
  now : jsstring                (* [new Date().toISOString()] *)
}.

Section GradeOne.
Variable rt : Runtime.

(** What the interval callback writes once [seconds] is incremented. *)
Definition tick_update (seconds : float) : value :=
  VObj [("status",
         VStr (lit "processing (" ++ NumberToString rt seconds ++ lit "s)"));
        ("elapsed", VNum seconds)].

Fixpoint ticks (index n : nat) (seconds : float) (students : list value)
  : float * list value :=
  match n with
  | O => (seconds, students)
  | S n' =>
      let seconds' := PrimFloat.add seconds PrimFloat.one in
      ticks index n' seconds'
            (updateStudent index (tick_update seconds') students)
  end.

(** The [catch] branch: [updateStudent(index, { status: "error" })]. *)
Definition failed (index : nat) (students : list value) : list value :=
  updateStudent index (VObj [("status", VStr (lit "error"))]) students.

(** From the reply text to the last update.  [text.trim()] throws when
    the content is not a string, which the [catch] branch takes. *)
Definition display (index : nat) (text : value) (now : jsstring)
           (students : list value) : list value :=
  match text with
  | VStr t =>
      let parsed := match JSON_parse rt (cleaned_text t) with
                    | Some v => v
                    | None => parse_error text
                    end in
      updateStudent index
        (VObj [("result", parsed); ("gradedAt", VStr now);
               ("status", VStr (lit "displayed"))])
        students
  | _ => failed index students
  end.

(** The students array after [gradeOne(student, index)], every queued
    update applied in order.  [student.name] is read before the [try]
    block.  A rejected [fetch] stands for every failure of the request,
    also one raised while it is built. *)
Definition gradeOne (r : run) (student : value) (index : nat)
           (students : list value) : outcome (list value) :=
  _ <- get student "name" ;;
  let s0 := updateStudent index
              (VObj [("status", VStr (lit "sent"));
                     ("elapsed", VNum PrimFloat.zero)]) students in
  let (seconds, s1) := ticks index (ticks_waiting r) PrimFloat.zero s0 in
  Ok (match fetched r with
      | None => failed index s1
      | Some resp =>
          let s2 := updateStudent index
                      (VObj [("status", VStr (lit "received"))]) s1 in
          let (_, s3) := ticks index (ticks_reading r) seconds s2 in
          match json resp with
          | None => failed index s3
          | Some data => display index (reply_text data) (now r) s3
          end
      end).

End GradeOne.

(** [students[index]?.[key]] *)
Definition record_field (students : list value) (index : nat) (key : string)
  : value :=
  opt_get (nth index students VUndefined) key.

End Grading.

(** ** The application around the three functions *)

Module App.
Import Str Values Splitter Grading.
Local Open Scope string_scope.
Local Open Scope list_scope.

(** The text of an array index or length: its decimal digits. *)
Definition decimal (n : nat) : jsstring :=
  lit (DecimalString.NilEmpty.string_of_uint (Nat.to_uint n)).

(** [studentTexts.map((text, idx) => ({ name:
    `${file.name}-Student${idx + 1}`, content: text, ... }))], from
    index [idx] on. *)
Fixpoint student_records (file_name : jsstring) (idx : nat)
         (texts : list jsstring) : list value :=
  match texts with
  | [] => []
  | text :: rest =>
      new_student (file_name ++ lit "-Student" ++ decimal (idx + 1)) text
      :: student_records file_name (S idx) rest
  end.

(** The students and the index shown. *)
Record view := {
  students : list value;
  currentIndex : nat
}.

(** [handleStudentUpload] on a PDF or an image whose extracted text is
    [content]: the text is split, [setStudents(studentObjs)] and
    [setCurrentIndex(0)]. *)
Definition upload_scan (file_name content : jsstring) : view :=
  {| students := student_records file_name 0 (splitStudentsFromText content);
     currentIndex := 0 |}.

(** [handlePasteStudent] *)
Definition handlePasteStudent (v : view) : view :=
  {| students :=
       students v ++
       [new_student (lit "Pasted-" ++ decimal (length (students v) + 1)) []];
     currentIndex := currentIndex v + 1 |}.

(** What the submission textarea writes on a change. *)
Definition edited (text : jsstring) : value :=
  VObj [("content", VStr text); ("result", VNull);
        ("status", VStr (lit "idle")); ("gradedAt", VNull);
        ("elapsed", VNum PrimFloat.zero)].

(** The [onChange] of the submission textarea, which is rendered only
    when there are students. *)
Definition edit_content (text : jsstring) (v : view) : view :=
  match students v with
  | [] => v
  | _ => {| students := updateStudent (currentIndex v) (edited text) (students v);
            currentIndex := currentIndex v |}
  end.

(** Prev: [setCurrentIndex((i) => Math.max(0, i - 1))]; the button is
    rendered with the students and disabled on the first one. *)
Definition prev_click (v : view) : view :=
  match students v with
  | [] => v
  | _ => if Nat.eqb (currentIndex v) 0 then v
         else {| students := students v;
                 currentIndex := Nat.max 0 (currentIndex v - 1) |}
  end.

(** Next: [setCurrentIndex((i) => Math.min(students.length - 1, i + 1))];
    the button is rendered with the students and disabled on the last
    one. *)
Definition next_click (v : view) : view :=
  match students v with
  | [] => v
  | _ => if Nat.eqb (currentIndex v) (length (students v) - 1) then v
         else {| students := students v;
                 currentIndex :=
                   Nat.min (length (students v) - 1) (currentIndex v + 1) |}
  end.

Section Grade.
Variable rt : Runtime.

(** What a click on Grade leaves behind: the students array once the
    call it started is over, and the rejection that nobody handles, if
    any. *)
Record clicked := {
  students_after : list value;
  unhandled_rejection : option error
}.

(** [gradeCurrent] calls [gradeOne] and returns without waiting for it or
    keeping its promise, so it never throws itself.  When [gradeOne]
    throws, which it does on [student.name] before its first update, its
    promise is rejected, nothing handles that, and the array is as it
    was. *)
Definition gradeCurrent (r : run) (apiKey answerKey : jsstring) (v : view)
  : clicked :=
  if negb (nonempty apiKey) || negb (nonempty answerKey)
     || Nat.eqb (length (students v)) 0
  then {| students_after := students v; unhandled_rejection := None |}
  else
    match gradeOne rt r (nth (currentIndex v) (students v) VUndefined)
                   (currentIndex v) (students v) with
    | Ok final => {| students_after := final; unhandled_rejection := None |}
    | Throw e => {| students_after := students v;
                    unhandled_rejection := Some e |}
    end.

(** The loop of [gradeAll] over the indices still to visit.  [snapshot]
    is the array the handler closed over, which decides who is graded;
    [live] is the array the queued updates act on.  [runs i] is what
    happens around the call for index [i]. *)
Fixpoint gradeAll_loop (runs : nat -> run) (snapshot : list value)
         (todo : list nat) (live : list value) : outcome (list value) :=
  match todo with
  | [] => Ok live
  | i :: rest =>
      result <- get (nth i snapshot VUndefined) "result" ;;
      live' <- (if negb (truthy result)
                then gradeOne rt (runs i) (nth i snapshot VUndefined) i live
                else Ok live) ;;
      gradeAll_loop runs snapshot rest live'
  end.

(** [gradeAll] *)
Definition gradeAll (runs : nat -> run) (apiKey answerKey : jsstring)
           (students : list value) : outcome (list value) :=
  if negb (nonempty apiKey) || negb (nonempty answerKey)
     || Nat.eqb (length students) 0
  then Ok students
  else gradeAll_loop runs students (seq 0 (length students)) students.

End Grade.

(** [getLetterGrade]; [pct >= c] is false on NaN. *)
Definition getLetterGrade (pct : float) : jsstring :=
  if PrimFloat.leb 90 pct then lit "A"
  else if PrimFloat.leb 80 pct then lit "B"
  else if PrimFloat.leb 70 pct then lit "C"
  else lit "F".

(** [pct >= passThreshold] *)
Definition passes (passThreshold pct : float) : bool :=
  PrimFloat.leb passThreshold pct.

End App.

(** ** What is kept across sessions *)

Module Persistence.
Import Str.
Local Open Scope string_scope.
Local Open Scope list_scope.

(** [localStorage]: [getItem] answers [null] for a key never set. *)
Definition storage := string -> option jsstring.

Definition setItem (key : string) (v : jsstring) (st : storage) : storage :=
  fun k => if String.eqb key k then Some v else st k.

(** [handleApiKeyChange]: the key shown and the storage afterwards. *)
Definition handleApiKeyChange (newKey : jsstring) (st : storage)
  : jsstring * storage :=
  (newKey,
   if nonempty (trim newKey)
   then setItem "openai_api_key" (trim newKey) st
   else st).

(** The mount effect on the key: [if (saved) setApiKey(saved)] over the
    empty initial key. *)
Definition loaded_key (st : storage) : jsstring :=
  match st "openai_api_key" with
  | Some s => if nonempty s then s else []
  | None => []
  end.

(** The Save button of the prompt dialog. *)
Definition save_prompt (gradingPrompt : jsstring) (st : storage) : storage :=
  setItem "grading_prompt" gradingPrompt st.

(** The mount effect on the prompt, over the initial prompt. *)
Definition loaded_prompt (initial : jsstring) (st : storage) : jsstring :=
  match st "grading_prompt" with
  | Some s => if nonempty s then s else initial
  | None => initial
  end.

(** The storage after the key field received these values in turn. *)
Definition typed (inputs : list jsstring) (st : storage) : storage :=
  fold_left (fun s k => snd (handleApiKeyChange k s)) inputs st.

End Persistence.

(** ** The rows of the CSV export *)

Module Csv.
Import Str Values.
Local Open Scope list_scope.

Definition QUOTE : char := 34%N.

(** The [replace] of the cell text: every double quote is written
    twice. *)
Fixpoint double_quotes (s : jsstring) : jsstring :=
  match s with
  | [] => []
  | c :: rest =>
      if (c =? QUOTE)%N then QUOTE :: QUOTE :: double_quotes rest
      else c :: double_quotes rest
  end.

(** The template around it: the doubled text between two double
    quotes. *)
Definition quote_cell (text : jsstring) : jsstring :=
  QUOTE :: double_quotes text ++ [QUOTE].

(** [parts.join(sep)] on strings. *)
Fixpoint join (sep : char) (parts : list jsstring) : jsstring :=
  match parts with
  | [] => []
  | [p] => p
  | p :: rest => p ++ sep :: join sep rest
  end.

(** The line of a row of cell texts. *)
Definition row_line (texts : list jsstring) : jsstring :=
  join COMMA (map quote_cell texts).

Section Row.
Variable rt : Runtime.

(** [cells.map(String)], which stops at the first cell that throws. *)
Fixpoint cell_texts (cells : list value) : outcome (list jsstring) :=
  match cells with
  | [] => Ok []
  | c :: rest =>
      t <- ToString rt c ;;
      ts <- cell_texts rest ;;
      Ok (t :: ts)
  end.

(** [row.map((cell) => ...).join(",")]: every cell as a string, quoted,
    and the cells joined by commas. *)
Definition csv_row (cells : list value) : outcome jsstring :=
  texts <- cell_texts cells ;;
  Ok (row_line texts).

End Row.

End Csv.

(** ** The text of a PDF *)

Module Pdf.
Import Str Csv.
Local Open Scope list_scope.

Definition SPACE : char := 32%N.

(** What [readPdfFile] adds for a page, given the strings of its text
    items: [content.items.map((s) => s.str).join(" ") + "\n"]. *)
Definition page_line (items : list jsstring) : jsstring :=
  join SPACE items ++ [NL].

(** The loop over the pages: [text += ...] from the empty string. *)
Definition pdf_text (pages : list (list jsstring)) : jsstring :=
  fold_left (fun text items => text ++ page_line items) pages [].

End Pdf.

(** ** The window of the desktop shell (electron-main.js) *)

Module Electron.
Local Open Scope list_scope.

(** The module variable [mainWindow]. *)
Inductive reference :=
| RUndefined
| RNull
| RWindow (id : nat).

Record shell := {
  mainWindow : reference;
  open : list nat;          (* the windows that exist *)
  created : nat;            (* how many were created so far *)
  ready : bool;             (* [app.whenReady()] has resolved *)
  quit : bool               (* [app.quit()] was called *)
}.

Definition launched : shell :=
  {| mainWindow := RUndefined; open := []; created := 0;
     ready := false; quit := false |}.

(** [createWindow]: a new window, referred to by [mainWindow]. *)
Definition createWindow (s : shell) : shell :=
  {| mainWindow := RWindow (created s);
     open := created s :: open s;
     created := S (created s);
     ready := ready s;
     quit := quit s |}.

Inductive event :=
| Ready               (* the promise of [app.whenReady()] resolves *)
| Activate            (* the application is activated *)
| Close (id : nat).   (* the user closes window [id] *)

Definition remove_window (id : nat) (l : list nat) : list nat :=
  filter (fun w => negb (Nat.eqb w id)) l.

(** The handlers run by one event.  Closing a window runs its ["closed"]
    handler, and ["window-all-closed"] when no window is left; nothing
    runs once the application has quit, and the promise resolves once. *)
Definition step (darwin : bool) (s : shell) (e : event) : shell :=
  if quit s then s
  else
    match e with
    | Ready =>
        if ready s then s
        else createWindow {| mainWindow := mainWindow s; open := open s;
                             created := created s; ready := true;
                             quit := quit s |}
    | Activate =>
        match mainWindow s with
        | RNull => createWindow s
        | _ => s
        end
    | Close id =>
        if existsb (Nat.eqb id) (open s) then
          let left := remove_window id (open s) in
          {| mainWindow := RNull;
             open := left;
             created := created s;
             ready := ready s;
             quit := match left with
                     | [] => negb darwin
                     | _ => false
                     end |}
        else s
    end.

Definition run_events (darwin : bool) (events : list event) : shell :=
  fold_left (step darwin) events launched.

End Electron.

(** ** What the pattern matches *)

Module RegexFacts.
Import Str Regex.
Local Open Scope N_scope.

(** Turns boolean tests on code units into arithmetic facts. *)
Ltac code_units :=
  repeat match goal with
  | H : _ && _ = true |- _ => apply andb_true_iff in H; destruct H
  | H : _ || _ = true |- _ => apply orb_true_iff in H; destruct H
  | H : _ && _ = false |- _ => apply andb_false_iff in H; destruct H
  | H : _ || _ = false |- _ => apply orb_false_iff in H; destruct H
  | H : (_ =? _) = true |- _ => apply N.eqb_eq in H
  | H : (_ =? _) = false |- _ => apply N.eqb_neq in H
  | H : (_ <=? _) = true |- _ => apply N.leb_le in H
  | H : (_ <=? _) = false |- _ => apply N.leb_gt in H
  end.

(** The declarative reading of the pattern syntax: [lang r w c c'] says
    that [r] matches exactly the string [w], turning capture [c] into
    [c']. *)
Inductive lang : regex -> jsstring -> option jsstring -> option jsstring -> Prop :=
| L_eps c : lang Eps [] c c
| L_atom a x c : atom_match a x = true -> lang (Atom a) [x] c c
| L_star a w c : forallb (atom_match a) w = true -> lang (Star a) w c c
| L_seq r1 r2 w1 w2 c c1 c2 :
    lang r1 w1 c c1 -> lang r2 w2 c1 c2 -> lang (Seq r1 r2) (w1 ++ w2) c c2
| L_alt_l r1 r2 w c c' : lang r1 w c c' -> lang (Alt r1 r2) w c c'
| L_alt_r r1 r2 w c c' : lang r2 w c c' -> lang (Alt r1 r2) w c c'
| L_group r w c c1 : lang r w c c1 -> lang (Group r) w c (Some w).

Lemma firstn_app_length (w s' : jsstring) :
  firstn (length (w ++ s') - length s') (w ++ s') = w.
Proof.
  rewrite length_app, Nat.add_sub.
  rewrite firstn_app, Nat.sub_diag, firstn_all. simpl.
  apply app_nil_r.
Qed.

Section Soundness.
Variable R : Type.

Lemma star_m_sound a : forall s cap (k : cont R) res,
    star_m a s cap k = Some res ->
    exists w s', s = w ++ s' /\ forallb (atom_match a) w = true /\
                 k s' cap = Some res.
  Proof.
    induction s as [|x s IH]; intros cap k res H; simpl in H.
    - exists [], []. auto.
    - destruct (atom_match a x) eqn:Hx.
      + destruct (star_m a s cap k) eqn:Hs.
        * inversion H; subst.
          destruct (IH _ _ _ Hs) as (w & s' & -> & Hw & Hk).
          exists (x :: w), s'. simpl. rewrite Hx, Hw. auto.
        * exists [], (x :: s). auto.
      + exists [], (x :: s). auto.
  Qed.

  (** Whenever the matcher succeeds, the continuation was entered after a
      prefix of the input that belongs to the language of the pattern. *)
Lemma m_sound : forall r s cap (k : cont R) res,
    m r s cap k = Some res ->
    exists w s' cap', s = w ++ s' /\ lang r w cap cap' /\
                      k s' cap' = Some res.
  Proof.
    induction r as [|a|a|r1 IH1 r2 IH2|r1 IH1 r2 IH2|r1 IH1];
      intros s cap k res H; simpl in H.
    - exists [], s, cap. repeat split; auto. constructor.
    - destruct s as [|x s]; [discriminate|].
      destruct (atom_match a x) eqn:Hx; [|discriminate].
      exists [x], s, cap. repeat split; auto. now constructor.
    - destruct (star_m_sound _ _ _ _ H) as (w & s' & -> & Hw & Hk).
      exists w, s', cap. repeat split; auto. now constructor.
    - destruct (IH1 _ _ _ _ H) as (w1 & s1 & c1 & -> & L1 & H1).
      destruct (IH2 _ _ _ _ H1) as (w2 & s2 & c2 & -> & L2 & H2).
      exists (w1 ++ w2), s2, c2. rewrite app_assoc.
      repeat split; auto. econstructor; eauto.
    - destruct (m r1 s cap k) eqn:E1.
      + inversion H; subst.
        destruct (IH1 _ _ _ _ E1) as (w & s' & c' & -> & L & Hk).
        exists w, s', c'. repeat split; auto. now apply L_alt_l.
      + destruct (IH2 _ _ _ _ H) as (w & s' & c' & -> & L & Hk).
        exists w, s', c'. repeat split; auto. now apply L_alt_r.
    - destruct (IH1 _ _ _ _ H) as (w & s' & c' & -> & L & Hk).
      rewrite firstn_app_length in Hk.
      exists w, s', (Some w). repeat split; auto. econstructor; eauto.
  Qed.
End Soundness.

(** *** Code-unit facts *)

Lemma canonicalize_dash x : canonicalize x = DASH -> x = DASH.
Proof.
  unfold canonicalize, DASH.
  destruct ((97 <=? x) && (x <=? 122)) eqn:E; code_units; lia.
Qed.


Lemma space_canonical x : is_space x = true -> canonicalize x = x.
Proof.
  unfold is_space, canonicalize. intros H.
  destruct ((97 <=? x) && (x <=? 122)) eqn:E; auto.
  code_units; lia.
Qed.

(** A letter, a colon, a dash or a digit is not white space. *)
Lemma canonical_not_space x c :
  canonicalize x = c -> 33 <= c <= 126 -> is_space x = false.
Proof.
  intros Hc Hr. destruct (is_space x) eqn:Hs; auto.
  rewrite (space_canonical _ Hs) in Hc. subst c.
  unfold is_space in Hs. code_units; lia.
Qed.

Lemma digit_not_space x : is_digit x = true -> is_space x = false.
Proof.
  unfold is_digit. intros H. destruct (is_space x) eqn:Hs; auto.
  unfold is_space in Hs. code_units; lia.
Qed.

Lemma newline_is_space : is_space NL = true.
Proof. reflexivity. Qed.

Lemma lit_nl_match x : atom_match (Lit NL) x = true -> x = NL.
Proof.
  simpl. unfold canonicalize, NL. intros H.
  destruct ((97 <=? x) && (x <=? 122)) eqn:E;
    simpl in H; code_units; lia.
Qed.

(** *** Inversion of the pattern *)

Lemma lang_chars : forall cs c w c0 c1,
  lang (chars c cs) w c0 c1 -> c1 = c0 /\ Delimiter.ci_eq w (c :: cs) = true.
Proof.
  induction cs as [|c' cs IH]; intros c w c0 c1 H; simpl in H.
  - inversion H; subst. simpl in *. split; auto.
    match goal with H : (canonicalize _ =? _) = true |- _ => now rewrite H end.
  - inversion H; subst.
    match goal with
    | H1 : lang (Atom _) _ _ _, H2 : lang (chars _ _) _ _ _ |- _ =>
        inversion H1 as [|? ? ? Hx| | | | |]; subst;
        apply IH in H2; destruct H2 as [-> Hrest]
    end.
    split; auto.
    simpl in Hx. simpl app.
    change (((canonicalize x =? canonicalize c) &&
             Delimiter.ci_eq w2 (c' :: cs)) = true).
    now rewrite Hx, Hrest.
Qed.

Lemma lang_word s w c0 c1 :
  lang (word s) w c0 c1 -> c1 = c0 /\ Delimiter.ci_eq w (lit s) = true.
Proof.
  unfold word. destruct (lit s) as [|c cs].
  - intros H. inversion H; subst. auto.
  - apply lang_chars.
Qed.

Lemma ci_eq_length : forall w l,
  Delimiter.ci_eq w l = true -> length w = length l.
Proof.
  induction w as [|x w IH]; destruct l as [|c l]; simpl; try discriminate; auto.
  intros H. apply andb_true_iff in H. destruct H as [_ H].
  f_equal. now apply IH.
Qed.

Lemma lang_plus a w c0 c1 :
  lang (Plus a) w c0 c1 ->
  c1 = c0 /\ exists x w', w = x :: w' /\ atom_match a x = true /\
                          forallb (atom_match a) w' = true.
Proof.
  intros H. inversion H; subst.
  match goal with
  | H1 : lang (Atom _) _ _ _, H2 : lang (Star _) _ _ _ |- _ =>
      inversion H1; subst; inversion H2; subst
  end.
  split; auto. exists x, w2. auto.
Qed.

Lemma forallb_dash w :
  forallb (atom_match (Lit DASH)) w = true ->
  forallb (fun x => x =? DASH) w = true.
Proof.
  induction w as [|x w IH]; simpl; auto.
  intros H. apply andb_true_iff in H. destruct H as [Hx Hw].
  apply N.eqb_eq, canonicalize_dash in Hx. subst x.
  now rewrite IH.
Qed.

Lemma page_marker_intro w1 x w' :
  Delimiter.ci_eq w1 (lit "Page ") = true ->
  is_digit x = true -> forallb is_digit w' = true ->
  Delimiter.page_marker (w1 ++ x :: w') = true.
Proof.
  intros Hw Hx Hd.
  assert (Hl : length w1 = 5%nat) by (apply ci_eq_length in Hw; exact Hw).
  unfold Delimiter.page_marker.
  replace (firstn 5 (w1 ++ x :: w')) with w1.
  2:{ rewrite firstn_app, (firstn_all2 w1) by lia.
      rewrite Hl, Nat.sub_diag. simpl. now rewrite app_nil_r. }
  replace (skipn 5 (w1 ++ x :: w')) with (x :: w').
  2:{ rewrite skipn_app, (skipn_all2 w1) by lia.
      now rewrite Hl, Nat.sub_diag. }
  rewrite Hw. simpl. now rewrite Hx, Hd.
Qed.

Lemma dash_run_intro n w :
  (n <= length w)%nat -> forallb (atom_match (Lit DASH)) w = true ->
  Delimiter.dash_run n w = true.
Proof.
  intros Hn Hw. unfold Delimiter.dash_run.
  rewrite (forallb_dash _ Hw).
  apply Nat.leb_le in Hn. now rewrite Hn.
Qed.

Lemma ci_eq_forallb : forall w l c,
  Delimiter.ci_eq w l = true -> Forall (fun y => y = c) l ->
  forallb (atom_match (Lit c)) w = true.
Proof.
  induction w as [|x w IH]; destruct l as [|y l]; simpl; try discriminate; auto.
  intros c H Hall. apply andb_true_iff in H. destruct H as [Hx Hw].
  inversion Hall; subst. rewrite Hx. simpl. eapply IH; eauto.
Qed.

(** The group of the pattern captures one of the delimiter tokens. *)
Lemma lang_token d c0 c1 :
  lang (Alt (word "Student:")
        (Alt (word "Name:")
         (Alt (Seq (word "Page ") (Plus Digit))
              (Seq (word "----") (Plus (Lit DASH)))))) d c0 c1 ->
  Delimiter.is_delimiter d = true.
Proof.
  unfold Delimiter.is_delimiter.
  intros H. inversion H as [| | | |? ? ? ? ? H1|? ? ? ? ? H1|]; subst; clear H.
  { apply lang_word in H1. destruct H1 as [_ ->]. reflexivity. }
  inversion H1 as [| | | |? ? ? ? ? H2|? ? ? ? ? H2|]; subst; clear H1.
  { apply lang_word in H2. destruct H2 as [_ ->].
    now rewrite orb_true_r. }
  inversion H2 as [| | | |? ? ? ? ? H3|? ? ? ? ? H3|]; subst; clear H2.
  - inversion H3 as [| | |? ? w1 w2 ? ? ? Hw Hp| | |]; subst; clear H3.
    apply lang_word in Hw. destruct Hw as [-> Hw].
    apply lang_plus in Hp. destruct Hp as (_ & x & w' & -> & Hx & Hd).
    rewrite (@page_marker_intro w1 x w' Hw Hx Hd).
    now rewrite !orb_true_r.
  - inversion H3 as [| | |? ? w1 w2 ? ? ? Hw Hp| | |]; subst; clear H3.
    apply lang_word in Hw. destruct Hw as [-> Hw].
    apply lang_plus in Hp. destruct Hp as (_ & x & w' & -> & Hx & Hd).
    assert (Hl : length w1 = 4%nat) by (apply ci_eq_length in Hw; exact Hw).
    assert (Hall : forallb (atom_match (Lit DASH)) (w1 ++ x :: w') = true).
    { rewrite forallb_app.
      rewrite (@ci_eq_forallb w1 _ DASH Hw) by (repeat constructor).
      change (atom_match (Lit DASH) x && forallb (atom_match (Lit DASH)) w'
              = true).
      now rewrite Hx, Hd. }
    rewrite (@dash_run_intro 5 (w1 ++ x :: w')); auto.
    + now rewrite !orb_true_r.
    + rewrite length_app, Hl. simpl. lia.
Qed.

(** Every sticky match has the shape newline, blanks, token, blanks,
    newline, and captures the token. *)
Lemma exec_at_inv s cap rest :
  exec_at s = Some (cap, rest) ->
  exists ws1 d ws2,
    s = NL :: ws1 ++ d ++ ws2 ++ NL :: rest /\
    Delimiter.blank ws1 = true /\ Delimiter.blank ws2 = true /\
    cap = Some d /\ Delimiter.is_delimiter d = true.
Proof.
  unfold exec_at. intros H.
  apply m_sound in H. destruct H as (w & s' & c' & -> & L & Hk).
  inversion Hk; subst; clear Hk.
  unfold delimiter_pattern in L.
  inversion L as [| | |? ? w1 wa ? ? ? L1 La| | |]; subst; clear L.
  inversion La as [| | |? ? w2 wb ? ? ? L2 Lb| | |]; subst; clear La.
  inversion Lb as [| | |? ? w3 wc ? ? ? L3 Lc| | |]; subst; clear Lb.
  inversion Lc as [| | |? ? w4 w5 ? ? ? L4 L5| | |]; subst; clear Lc.
  inversion L1; subst. inversion L2; subst. inversion L4; subst.
  inversion L5; subst. inversion L3; subst.
  repeat match goal with
         | H : atom_match (Lit NL) _ = true |- _ =>
             apply lit_nl_match in H; subst
         end.
  exists w2, w3, w4. repeat split; auto.
  - simpl. now rewrite <- !app_assoc.
  - eapply lang_token; eauto.
Qed.

(** *** Matching a delimiter line *)

Definition head_rejected (p : char -> bool) (t : jsstring) : Prop :=
  match t with
  | [] => True
  | y :: _ => p y = false
  end.

Section Greedy.
Variable R : Type.





End Greedy.


Lemma ci_eq_head w c l :
  Delimiter.ci_eq w (c :: l) = true ->
  exists x w', w = x :: w' /\ canonicalize x = canonicalize c.
Proof.
  destruct w as [|x w]; simpl; [discriminate|].
  intros H. apply andb_true_iff in H. destruct H as [Hx _].
  apply N.eqb_eq in Hx. eauto.
Qed.









(** *** The edges of a delimiter token are not white space *)

Lemma forallb_rev (A : Type) (p : A -> bool) (l : list A) :
  forallb p (rev l) = forallb p l.
Proof.
  induction l as [|x l IH]; simpl; auto.
  rewrite forallb_app, IH. simpl. rewrite andb_true_r. apply andb_comm.
Qed.

Lemma forallb_head (p q : char -> bool) (l : jsstring) :
  (forall x, p x = true -> q x = false) ->
  forallb p l = true -> head_rejected q l.
Proof.
  intros Hpq. destruct l as [|x l]; simpl; auto.
  intros H. apply andb_true_iff in H. destruct H as [Hx _]. auto.
Qed.

Lemma dash_not_space x : (x =? DASH) = true -> is_space x = false.
Proof. intros H. apply N.eqb_eq in H. now subst. Qed.

Lemma delimiter_head_nonspace d :
  Delimiter.is_delimiter d = true ->
  exists x d', d = x :: d' /\ is_space x = false.
Proof.
  unfold Delimiter.is_delimiter. intros Hd.
  apply orb_true_iff in Hd. destruct Hd as [Hd|Hd].
  apply orb_true_iff in Hd. destruct Hd as [Hd|Hd].
  apply orb_true_iff in Hd. destruct Hd as [Hd|Hd].
  - destruct (ci_eq_head _ _ _ Hd) as (x & d' & -> & Hx).
    exists x, d'. split; auto.
    eapply canonical_not_space; [exact Hx|]. vm_compute. split; discriminate.
  - destruct (ci_eq_head _ _ _ Hd) as (x & d' & -> & Hx).
    exists x, d'. split; auto.
    eapply canonical_not_space; [exact Hx|]. vm_compute. split; discriminate.
  - unfold Delimiter.page_marker in Hd.
    apply andb_true_iff in Hd. destruct Hd as [Hd _].
    apply andb_true_iff in Hd. destruct Hd as [Hw _].
    destruct (ci_eq_head _ _ _ Hw) as (x & d' & E & Hx).
    destruct d as [|x0 d0]; [discriminate|]. simpl in E. inversion E; subst.
    exists x, d0. split; auto.
    eapply canonical_not_space; [exact Hx|]. vm_compute. split; discriminate.
  - unfold Delimiter.dash_run in Hd.
    apply andb_true_iff in Hd. destruct Hd as [Hlen Hall].
    apply Nat.leb_le in Hlen.
    destruct d as [|x d']; [simpl in Hlen; lia|].
    simpl in Hall. apply andb_true_iff in Hall. destruct Hall as [Hx _].
    exists x, d'. split; auto. now apply dash_not_space.
Qed.

Lemma ci_eq_rev : forall w l,
  Delimiter.ci_eq w l = true -> Delimiter.ci_eq (rev w) (rev l) = true.
Proof.
  assert (Happ : forall w1 l1 w2 l2,
             Delimiter.ci_eq w1 l1 = true -> Delimiter.ci_eq w2 l2 = true ->
             Delimiter.ci_eq (w1 ++ w2) (l1 ++ l2) = true).
  { induction w1 as [|x w1 IH]; destruct l1 as [|c l1]; simpl;
      try discriminate; auto.
    intros w2 l2 H H2. apply andb_true_iff in H. destruct H as [Hx H].
    rewrite Hx. simpl. now apply IH. }
  induction w as [|x w IH]; destruct l as [|c l]; simpl; try discriminate; auto.
  intros H. apply andb_true_iff in H. destruct H as [Hx H].
  apply Happ; auto. simpl. now rewrite Hx.
Qed.

Lemma delimiter_last_nonspace d :
  Delimiter.is_delimiter d = true -> head_rejected is_space (rev d).
Proof.
  unfold Delimiter.is_delimiter. intros Hd.
  apply orb_true_iff in Hd. destruct Hd as [Hd|Hd].
  apply orb_true_iff in Hd. destruct Hd as [Hd|Hd].
  apply orb_true_iff in Hd. destruct Hd as [Hd|Hd].
  - apply ci_eq_rev in Hd.
    destruct (ci_eq_head (rev d) 58 (rev (lit "Student")) Hd)
      as (x & d' & -> & Hx).
    simpl. eapply canonical_not_space; [exact Hx|].
    vm_compute. split; discriminate.
  - apply ci_eq_rev in Hd.
    destruct (ci_eq_head (rev d) 58 (rev (lit "Name")) Hd)
      as (x & d' & -> & Hx).
    simpl. eapply canonical_not_space; [exact Hx|].
    vm_compute. split; discriminate.
  - unfold Delimiter.page_marker in Hd.
    apply andb_true_iff in Hd. destruct Hd as [Hd Hdig].
    apply andb_true_iff in Hd. destruct Hd as [_ Hne].
    rewrite <- (firstn_skipn 5 d), rev_app_distr.
    rewrite <- forallb_rev in Hdig.
    assert (Hn : rev (skipn 5 d) <> []).
    { destruct (skipn 5 d); [discriminate|]. simpl.
      intros E. now apply app_eq_nil in E. }
    destruct (rev (skipn 5 d)) as [|y r]; [congruence|].
    simpl in *. apply andb_true_iff in Hdig. destruct Hdig as [Hy _].
    now apply digit_not_space.
  - unfold Delimiter.dash_run in Hd.
    apply andb_true_iff in Hd. destruct Hd as [_ Hall].
    rewrite <- forallb_rev in Hall.
    eapply forallb_head; [|exact Hall].
    intros x. apply dash_not_space.
Qed.

Lemma drop_spaces_head s : head_rejected is_space s -> drop_spaces s = s.
Proof. destruct s as [|x s]; simpl; auto. now intros ->. Qed.

(** Trimming leaves a string alone when neither end is white space. *)
Lemma trim_edges s :
  head_rejected is_space s -> head_rejected is_space (rev s) -> trim s = s.
Proof.
  intros H1 H2. unfold trim.
  rewrite (drop_spaces_head _ H1), (drop_spaces_head _ H2).
  apply rev_involutive.
Qed.

Lemma trim_delimiter d : Delimiter.is_delimiter d = true -> trim d = d.
Proof.
  intros Hd. apply trim_edges.
  - destruct (delimiter_head_nonspace _ Hd) as (x & d' & -> & Hx). exact Hx.
  - now apply delimiter_last_nonspace.
Qed.

Lemma delimiter_nonempty d : Delimiter.is_delimiter d = true -> d <> [].
Proof.
  intros Hd. destruct (delimiter_head_nonspace _ Hd) as (x & d' & -> & _).
  discriminate.
Qed.

(** *** A delimiter line is matched *)

Definition accept : cont (option jsstring * jsstring) :=
  fun s' cap => Some (cap, s').


(** *** What the end of a delimiter line takes *)

Lemma m_seq R r1 r2 s cap (k : cont R) :
  m (Seq r1 r2) s cap k = m r1 s cap (fun s' cap' => m r2 s' cap' k).
Proof. reflexivity. Qed.

(** The trailing [\s*\n] in general: the star gives characters back until
    a newline follows, so it ends at the last newline of the white space
    it meets. *)
Lemma line_end_gap : forall s cap,
  m (Seq (Star Space) (Atom (Lit NL))) s cap accept
  = option_map (pair cap) (Delimiter.gap s).
Proof.
  intros s cap.
  change (m (Seq (Star Space) (Atom (Lit NL))) s cap accept)
    with (star_m Space s cap
            (fun s' cap' => m (Atom (Lit NL)) s' cap' accept)).
  set (knl := fun s' cap' => m (Atom (Lit NL)) s' cap' accept).
  induction s as [|x s IH]; [reflexivity|].
  cbn [star_m atom_match Delimiter.gap].
  assert (Hk : knl (x :: s) cap
               = if x =? NL then Some (cap, s) else None).
  { subst knl. cbn [m atom_match]. unfold accept.
    destruct (canonicalize x =? canonicalize NL) eqn:E.
    - apply lit_nl_match in E. subst x. reflexivity.
    - destruct (x =? NL) eqn:E'; [|reflexivity].
      apply N.eqb_eq in E'. subst x. discriminate E. }
  destruct (is_space x) eqn:Hx.
  - rewrite IH. destruct (Delimiter.gap s) as [r|]; [reflexivity|].
    cbn [option_map]. rewrite Hk. now destruct (x =? NL).
  - rewrite Hk. destruct (x =? NL) eqn:E; [|reflexivity].
    apply N.eqb_eq in E. subst x. rewrite newline_is_space in Hx.
    discriminate.
Qed.

Lemma gap_blank_newline : forall ws b,
  Delimiter.blank ws = true ->
  Delimiter.gap (ws ++ NL :: b) = Some (Delimiter.after_gap b).
Proof.
  induction ws as [|x ws IH]; intros b H.
  - cbn [app Delimiter.gap]. rewrite newline_is_space.
    unfold Delimiter.after_gap. now destruct (Delimiter.gap b).
  - simpl in H. apply andb_true_iff in H. destruct H as [Hx Hws].
    cbn [app Delimiter.gap]. rewrite Hx. now rewrite IH.
Qed.

Lemma gap_idem : forall s r, Delimiter.gap s = Some r -> Delimiter.gap r = None.
Proof.
  induction s as [|x s IH]; intros r H; [discriminate|].
  cbn [Delimiter.gap] in H.
  destruct (is_space x); [|discriminate].
  destruct (Delimiter.gap s) as [r'|] eqn:E.
  - inversion H; subst. now apply IH.
  - destruct (x =? NL); [|discriminate]. inversion H; subst. exact E.
Qed.




(** The text left by a match does not start with white space that holds
    a newline: the match has taken it. *)
Lemma exec_at_gap s cap rest :
  exec_at s = Some (cap, rest) -> Delimiter.gap rest = None.
Proof.
  unfold exec_at, delimiter_pattern. intros H.
  rewrite m_seq in H. apply m_sound in H.
  destruct H as (w1 & s1 & c1 & _ & _ & H).
  rewrite m_seq in H. apply m_sound in H.
  destruct H as (w2 & s2 & c2 & _ & _ & H).
  rewrite m_seq in H. apply m_sound in H.
  destruct H as (w3 & s3 & c3 & _ & _ & H).
  change (m (Seq (Star Space) (Atom (Lit NL))) s3 c3 accept
          = Some (cap, rest)) in H.
  rewrite line_end_gap in H.
  destruct (Delimiter.gap s3) as [r|] eqn:E; [|discriminate].
  inversion H; subst. now apply gap_idem in E.
Qed.


End RegexFacts.

(** ** Facts about the splitter *)

Module SplitterFacts.
Import Str Regex Splitter RegexFacts.
Import Delimiter.

Lemma exec_at_shorter s cap rest :
  exec_at s = Some (cap, rest) -> length rest < length s.
Proof.
  intros H. apply exec_at_inv in H.
  destruct H as (ws1 & d & ws2 & -> & _).
  simpl. rewrite !length_app. simpl. lia.
Qed.

(** Capture 1 is defined in every match. *)
Lemma exec_at_captures s cap rest :
  exec_at s = Some (cap, rest) ->
  exists d, cap = Some d /\ is_delimiter d = true.
Proof.
  intros H. apply exec_at_inv in H.
  destruct H as (ws1 & d & ws2 & _ & _ & _ & -> & Hd). eauto.
Qed.

Lemma exec_at_nil : exec_at [] = None.
Proof. reflexivity. Qed.


(** *** The split loop *)

Lemma split_loop_match n chunk s cap rest :
  exec_at s = Some (cap, rest) ->
  split_loop (S n) chunk s = chunk :: capture_string cap :: split_loop n [] rest.
Proof.
  intros H. pose proof (@exec_at_shorter _ _ _ H) as Hlt.
  destruct s as [|x s']; [discriminate|].
  cbn [split_loop]. rewrite H.
  replace (Nat.eqb (length rest) (length chunk + length (x :: s'))) with false;
    auto.
  symmetry. apply Nat.eqb_neq. lia.
Qed.

Lemma split_loop_nomatch n chunk x s' :
  exec_at (x :: s') = None ->
  split_loop (S n) chunk (x :: s') = split_loop n (chunk ++ [x]) s'.
Proof. intros H. cbn [split_loop]. now rewrite H. Qed.

(** The loop does not depend on the fuel once there is as much of it as
    there are code units left. *)
Lemma split_loop_fuel : forall n n' s chunk,
  length s <= n -> length s <= n' ->
  split_loop n chunk s = split_loop n' chunk s.
Proof.
  induction n as [|n IH]; intros n' s chunk Hn Hn'.
  - destruct s; [|simpl in Hn; lia]. now destruct n'.
  - destruct s as [|x s']; [now destruct n'|].
    destruct n' as [|n']; [simpl in Hn'; lia|].
    simpl in Hn, Hn'.
    destruct (exec_at (x :: s')) as [[cap rest]|] eqn:E.
    + rewrite !(@split_loop_match _ _ _ _ _ E).
      pose proof (@exec_at_shorter _ _ _ E) as Hlt. simpl in Hlt.
      do 2 f_equal. apply IH; lia.
    + rewrite !(@split_loop_nomatch _ _ _ _ E). apply IH; lia.
Qed.

Lemma js_split_loop text n :
  length text <= n -> js_split text = split_loop n [] text.
Proof.
  intros Hn. unfold js_split. destruct text as [|x t].
  - rewrite exec_at_nil. now destruct n.
  - now apply split_loop_fuel.
Qed.

(** The array returned by [split] is the text before the first match
    followed by one token and one chunk per match. *)
Lemma split_loop_shape : forall n s chunk,
  length s <= n ->
  exists pre ms,
    split_loop n chunk s = pre :: interleave ms /\
    length ms = count_loop n s /\
    Forall (fun dc => is_delimiter (fst dc) = true) ms.
Proof.
  induction n as [|n IH]; intros s chunk Hn.
  - destruct s; [|simpl in Hn; lia].
    exists chunk, []. simpl. auto.
  - destruct s as [|x s'].
    + exists chunk, []. simpl. auto.
    + simpl in Hn. cbn [count_loop].
      destruct (exec_at (x :: s')) as [[cap rest]|] eqn:E.
      * rewrite (@split_loop_match _ _ _ _ _ E).
        pose proof (@exec_at_shorter _ _ _ E) as Hlt. simpl in Hlt.
        destruct (@exec_at_captures _ _ _ E) as (d & -> & Hd).
        destruct (IH rest [] ltac:(lia)) as (pre & ms & -> & Hl & Hall).
        exists chunk, ((d, pre) :: ms). simpl. repeat split; auto.
      * rewrite (@split_loop_nomatch _ _ _ _ E).
        destruct (IH s' (chunk ++ [x]) ltac:(lia)) as (pre & ms & -> & Hl & Hall).
        exists pre, ms. auto.
Qed.

Lemma js_split_shape text :
  exists pre ms,
    js_split text = pre :: interleave ms /\
    length ms = delimiter_matches text /\
    Forall (fun dc => is_delimiter (fst dc) = true) ms.
Proof.
  rewrite (@js_split_loop text _ (le_n _)).
  apply split_loop_shape. lia.
Qed.

Lemma interleave_length ms : length (interleave ms) = 2 * length ms.
Proof. induction ms as [|[d c] ms IH]; simpl; lia. Qed.

Lemma interleave_inj : forall ms ms',
  interleave ms = interleave ms' -> ms = ms'.
Proof.
  induction ms as [|[d c] ms IH]; destruct ms' as [|[d' c'] ms']; simpl;
    try discriminate; auto.
  intros H. inversion H; subst. f_equal. now apply IH.
Qed.

(** Without a match the text is returned whole. *)
Lemma js_split_no_match text :
  delimiter_matches text = 0 -> js_split text = [text].
Proof.
  unfold delimiter_matches. rewrite (@js_split_loop text _ (le_n _)).
  assert (H : forall n s chunk, length s <= n -> count_loop n s = 0 ->
                                split_loop n chunk s = [chunk ++ s]).
  { induction n as [|n IH]; intros s chunk Hn Hc.
    - destruct s; [|simpl in Hn; lia]. simpl. now rewrite app_nil_r.
    - destruct s as [|x s']; [simpl; now rewrite app_nil_r|].
      simpl in Hn. cbn [count_loop] in Hc.
      destruct (exec_at (x :: s')) as [[cap rest]|] eqn:E; [discriminate|].
      rewrite (@split_loop_nomatch _ _ _ _ E), IH by (auto; lia).
      now rewrite <- app_assoc. }
  intros Hc. now rewrite H.
Qed.

(** *** Trimming *)

Lemma drop_spaces_blank s : blank s = true -> drop_spaces s = [].
Proof.
  induction s as [|x s IH]; simpl; auto.
  intros H. apply andb_true_iff in H. destruct H as [Hx Hs].
  rewrite Hx. auto.
Qed.

Lemma drop_spaces_nil s : drop_spaces s = [] -> blank s = true.
Proof.
  induction s as [|x s IH]; simpl; auto.
  destruct (is_space x); [auto|discriminate].
Qed.

Lemma drop_spaces_starts s : head_rejected is_space (drop_spaces s).
Proof.
  induction s as [|x s IH]; simpl; auto.
  destruct (is_space x) eqn:E; auto.
Qed.

Lemma trim_blank s : blank s = true -> trim s = [].
Proof. intros H. unfold trim. now rewrite (drop_spaces_blank _ H). Qed.

Lemma trim_nonblank s : blank s = false -> trim s <> [].
Proof.
  intros H. unfold trim.
  destruct (drop_spaces s) as [|x t] eqn:E.
  - apply drop_spaces_nil in E. congruence.
  - pose proof (drop_spaces_starts s) as Hx. rewrite E in Hx. simpl in Hx.
    intros Hr.
    assert (Hn : drop_spaces (rev (x :: t)) = []).
    { rewrite <- (rev_involutive (drop_spaces (rev (x :: t)))), Hr.
      reflexivity. }
    apply drop_spaces_nil in Hn. unfold blank in Hn.
    rewrite forallb_rev in Hn. simpl in Hn. now rewrite Hx in Hn.
Qed.

Lemma has_length_true t : t <> [] -> has_length t = true.
Proof. destruct t; [congruence|reflexivity]. Qed.

(** *** The parts and their grouping *)

Lemma skipn_nth (parts : list jsstring) i :
  i < length parts -> skipn i parts = nth i parts [] :: skipn (S i) parts.
Proof.
  revert i. induction parts as [|a parts IH]; intros i Hi; simpl in Hi.
  - lia.
  - destruct i; [reflexivity|]. simpl. apply IH. lia.
Qed.

Lemma nth_error_skipn_head (parts : list jsstring) i :
  nth_error parts i = match skipn i parts with [] => None | b :: _ => Some b end.
Proof.
  revert i. induction parts as [|a parts IH]; intros [|i]; simpl; auto.
Qed.

(** The index loop builds the pairwise grouping of the parts. *)
Lemma students_loop_pairs : forall fuel parts i acc,
  length parts <= i + 2 * fuel ->
  students_loop fuel parts i acc = acc ++ pair_up (skipn i parts).
Proof.
  induction fuel as [|fuel IH]; intros parts i acc Hf; simpl.
  - rewrite skipn_all2 by lia. simpl. now rewrite app_nil_r.
  - destruct (Nat.ltb i (length parts)) eqn:Hi.
    + apply Nat.ltb_lt in Hi.
      rewrite IH by lia. rewrite <- app_assoc. f_equal.
      rewrite (skipn_nth parts Hi). unfold student_at.
      rewrite nth_error_skipn_head.
      replace (i + 1) with (S i) by lia.
      replace (i + 2) with (S (S i)) by lia.
      cbn [pair_up app].
      destruct (skipn (S i) parts) as [|b r] eqn:E.
      * rewrite app_nil_r. rewrite skipn_all2; [reflexivity|].
        assert (Hl : length (skipn (S i) parts) = 0) by now rewrite E.
        rewrite length_skipn in Hl. lia.
      * assert (Hr : skipn (S (S i)) parts = r).
        { replace (S (S i)) with (1 + S i) by lia.
          rewrite <- skipn_skipn, E. reflexivity. }
        now rewrite Hr.
    + apply Nat.ltb_ge in Hi. rewrite skipn_all2 by lia.
      simpl. now rewrite app_nil_r.
Qed.

Lemma splitStudentsFromText_unfold text :
  splitStudentsFromText text =
  if Nat.leb (length (parts_of text)) 1 then [text]
  else pair_up (parts_of text).
Proof.
  unfold splitStudentsFromText. cbv zeta.
  destruct (Nat.leb (length (parts_of text)) 1); auto.
  rewrite students_loop_pairs by lia. reflexivity.
Qed.

(** *** The chunks between two matches *)

Lemma gap_blank_prefix chunk t :
  blank chunk = true -> gap (chunk ++ NL :: t) <> None.
Proof. intros H. now rewrite gap_blank_newline. Qed.

(** When the search starts right after a match, every piece that a
    delimiter follows is not blank. *)
Lemma split_loop_inner : forall n s chunk,
  length s <= n -> gap (chunk ++ s) = None ->
  exists pre ms,
    split_loop n chunk s = pre :: interleave ms /\
    (ms <> [] -> blank pre = false) /\ chunks_ok ms.
Proof.
  induction n as [|n IH]; intros s chunk Hn Hg.
  - destruct s; [|simpl in Hn; lia].
    exists chunk, []. simpl. repeat split; congruence.
  - destruct s as [|x s'].
    + exists chunk, []. simpl. repeat split; congruence.
    + simpl in Hn.
      destruct (exec_at (x :: s')) as [[cap rest]|] eqn:E.
      * rewrite (@split_loop_match _ _ _ _ _ E).
        pose proof (@exec_at_shorter _ _ _ E) as Hlt. simpl in Hlt.
        destruct (@exec_at_captures _ _ _ E) as (d & -> & Hd).
        pose proof (@exec_at_gap _ _ _ E) as Hrest.
        destruct (IH rest [] ltac:(lia) Hrest) as (pre & ms & -> & Hp & Hc).
        exists chunk, ((d, pre) :: ms). cbn [capture_string interleave].
        split; [reflexivity|]. split.
        -- intros _. destruct (blank chunk) eqn:Eb; [|reflexivity].
           apply exec_at_inv in E.
           destruct E as (ws1 & d' & ws2 & E & _). rewrite E in Hg.
           now apply gap_blank_prefix in Hg.
        -- cbn [chunks_ok]. split; [|exact Hc].
           destruct ms; [exact I|]. apply Hp. discriminate.
      * rewrite (@split_loop_nomatch _ _ _ _ E).
        apply IH; [lia|]. now rewrite <- app_assoc.
Qed.

Lemma split_loop_chunks : forall n s chunk,
  length s <= n ->
  exists pre ms, split_loop n chunk s = pre :: interleave ms /\ chunks_ok ms.
Proof.
  induction n as [|n IH]; intros s chunk Hn.
  - destruct s; [|simpl in Hn; lia]. exists chunk, []. simpl. auto.
  - destruct s as [|x s'].
    + exists chunk, []. simpl. auto.
    + simpl in Hn.
      destruct (exec_at (x :: s')) as [[cap rest]|] eqn:E.
      * rewrite (@split_loop_match _ _ _ _ _ E).
        pose proof (@exec_at_shorter _ _ _ E) as Hlt. simpl in Hlt.
        destruct (@exec_at_captures _ _ _ E) as (d & -> & Hd).
        pose proof (@exec_at_gap _ _ _ E) as Hrest.
        destruct (@split_loop_inner n rest [] ltac:(lia) Hrest)
          as (pre & ms & -> & Hp & Hc).
        exists chunk, ((d, pre) :: ms). cbn [capture_string interleave].
        split; [reflexivity|]. cbn [chunks_ok]. split; [|exact Hc].
        destruct ms; [exact I|]. apply Hp. discriminate.
      * rewrite (@split_loop_nomatch _ _ _ _ E). apply IH. lia.
Qed.

(** Of the chunks that [split] returns after the delimiters, only the
    last can be blank. *)
Lemma js_split_chunks text pre ms :
  js_split text = pre :: interleave ms -> chunks_ok ms.
Proof.
  intros Hs. rewrite (@js_split_loop text _ (le_n _)) in Hs.
  destruct (@split_loop_chunks (length text) text [] (le_n _))
    as (pre' & ms' & Hs' & Hc).
  rewrite Hs in Hs'. inversion Hs' as [[Ep Em]].
  apply interleave_inj in Em. now subst.
Qed.

Lemma chunks_ok_nth : forall ms i,
  chunks_ok ms -> S i < length ms -> blank (snd (nth i ms ([], []))) = false.
Proof.
  induction ms as [|[d c] ms IH]; intros i Hc Hi; [simpl in Hi; lia|].
  cbn [chunks_ok] in Hc. destruct Hc as [Hc Hrest].
  destruct i as [|i].
  - destruct ms; [simpl in Hi; lia|exact Hc].
  - cbn [nth]. apply IH; [exact Hrest|simpl in Hi; lia].
Qed.

(** With nothing before the first delimiter, the pairing puts every
    delimiter with the chunk that follows it. *)
Lemma pair_up_chunks : forall ms,
  Forall (fun dc => is_delimiter (fst dc) = true) ms -> chunks_ok ms ->
  pair_up (filter has_length (map trim (interleave ms)))
  = map (fun dc => fst dc ++
                   if blank (snd dc) then [] else NL :: trim (snd dc)) ms.
Proof.
  induction ms as [|[d c] ms IH]; intros Hd Hc; [reflexivity|].
  inversion Hd as [|? ? Hd1 Hd2]; subst. cbn [fst] in Hd1.
  cbn [chunks_ok] in Hc. destruct Hc as [Hc Hrest].
  cbn [interleave map filter fst snd].
  rewrite (@trim_delimiter d Hd1).
  rewrite (@has_length_true d (@delimiter_nonempty d Hd1)).
  destruct (blank c) eqn:Eb.
  - destruct ms as [|m ms]; [|discriminate Hc].
    rewrite (@trim_blank c Eb). cbn. now rewrite app_nil_r.
  - rewrite (@has_length_true (trim c) (@trim_nonblank c Eb)).
    cbn [pair_up]. rewrite IH by assumption.
    pose proof (@trim_nonblank c Eb) as Hn.
    destruct (trim c) as [|y t]; [congruence|]. reflexivity.
Qed.

Lemma parts_of_chunks_length pre ms :
  blank pre = true ->
  Forall (fun dc => is_delimiter (fst dc) = true) ms -> chunks_ok ms ->
  2 <= length ms ->
  2 <= length (filter has_length (map trim (pre :: interleave ms))).
Proof.
  intros Hp Hd Hc Hl.
  destruct ms as [|[d c] [|[d' c'] ms]]; try (simpl in Hl; lia).
  inversion Hd as [|? ? Hd1 _]; subst. cbn [fst] in Hd1.
  cbn [chunks_ok] in Hc. destruct Hc as [Hc _].
  cbn [interleave map filter].
  rewrite (@trim_delimiter d Hd1).
  rewrite (@has_length_true d (@delimiter_nonempty d Hd1)).
  rewrite (@has_length_true (trim c) (@trim_nonblank c Hc)).
  destruct (has_length (trim pre)); simpl; lia.
Qed.

(** *** The search at a delimiter line *)








End SplitterFacts.

(** ** The splitter against its specification *)

Module SplitterSpec.
Import Str Regex Splitter Delimiter RegexFacts SplitterFacts.
Local Open Scope string_scope.
Local Open Scope list_scope.

(** C10: for every input string, the empty string and white space
    included, [splitStudentsFromText] returns at least one element. *)
Theorem split_never_empty (text : jsstring) :
  1 <= length (splitStudentsFromText text).
Proof.
  rewrite splitStudentsFromText_unfold.
  destruct (Nat.leb (length (parts_of text)) 1) eqn:E; [simpl; lia|].
  apply Nat.leb_gt in E.
  destruct (parts_of text) as [|a [|b r]]; simpl in *; lia.
Qed.

(** C1, as amended: when the pattern matches k >= 2 times and the text
    before the first delimiter is blank, [splitStudentsFromText] returns
    exactly k segments, the i-th starting with the i-th delimiter token,
    which is followed by a newline and the trimmed chunk after that
    delimiter.  Only the chunk after the last delimiter can be blank, and
    the last segment is then the token alone.  When the text before the
    first delimiter is not blank, the first segment is that text with the
    first delimiter token after it. *)
Theorem split_pairs_delimiter_with_following_chunk
        (text : jsstring) (k : nat) (pre : jsstring)
        (ms : list (jsstring * jsstring)) :
  delimiter_matches text = k -> 2 <= k ->
  js_split text = pre :: interleave ms ->
  length ms = k /\
  Forall (fun dc => is_delimiter (fst dc) = true) ms /\
  (forall i, S i < k -> blank (snd (nth i ms ([], []))) = false) /\
  (blank pre = true ->
   length (splitStudentsFromText text) = k /\
   splitStudentsFromText text
   = map (fun dc => fst dc ++
                    if blank (snd dc) then [] else NL :: trim (snd dc)) ms) /\
  (blank pre = false ->
   exists d c ms' rest,
     ms = (d, c) :: ms' /\
     splitStudentsFromText text = (trim pre ++ NL :: d) :: rest).
Proof.
  intros Hk H2 Hs.
  destruct (js_split_shape text) as (pre' & ms' & Hs' & Hl & Hd).
  rewrite Hs in Hs'. inversion Hs' as [[Ep Em]].
  apply interleave_inj in Em. subst pre' ms'.
  pose proof (@js_split_chunks text pre ms Hs) as Hc.
  split; [lia|]. split; [exact Hd|]. split; [|split].
  - intros i Hi. apply chunks_ok_nth; [exact Hc|].
    rewrite Hl, Hk. exact Hi.
  - intros Hpre.
    assert (Hres : splitStudentsFromText text
                   = map (fun dc => fst dc ++
                                    if blank (snd dc) then []
                                    else NL :: trim (snd dc)) ms).
    { rewrite splitStudentsFromText_unfold. unfold parts_of. rewrite Hs.
      pose proof (@parts_of_chunks_length pre ms Hpre Hd Hc ltac:(lia)) as Hp.
      replace (Nat.leb (length (filter has_length
                                  (map trim (pre :: interleave ms)))) 1)
        with false by (symmetry; apply Nat.leb_gt; lia).
      cbn [map filter]. rewrite (trim_blank _ Hpre).
      change (has_length []) with false. cbv iota.
      now apply pair_up_chunks. }
    split; [|exact Hres].
    rewrite Hres, length_map, <- Hk. exact Hl.
  - intros Hpre.
    destruct ms as [|[d c] ms']; [simpl in Hl; lia|].
    inversion Hd as [|? ? Hd1 _]; subst. cbn [fst] in Hd1.
    exists d, c, ms'.
    rewrite splitStudentsFromText_unfold. unfold parts_of. rewrite Hs.
    cbn [interleave map filter].
    rewrite (@has_length_true (trim pre) (@trim_nonblank pre Hpre)).
    rewrite (@trim_delimiter d Hd1).
    rewrite (@has_length_true d (@delimiter_nonempty d Hd1)).
    cbn [length Nat.leb pair_up].
    destruct (delimiter_head_nonspace d Hd1) as (x & d' & -> & _).
    eexists. split; reflexivity.
Qed.

Lemma split_pairs_delimiter_with_following_chunk_witness :
  delimiter_matches (NL :: lines ["Name:"; "b"; "-----"; " c "; "Name:"]
                        ++ [NL]) = 3 /\
  splitStudentsFromText (NL :: lines ["Name:"; "b"; "-----"; " c "; "Name:"]
                            ++ [NL])
  = [lines ["Name:"; "b"]; lines ["-----"; "c"]; lit "Name:"].
Proof.
  split; [reflexivity|].
  apply (proj2 (proj1 (proj2 (proj2 (proj2
           (@split_pairs_delimiter_with_following_chunk
              (NL :: lines ["Name:"; "b"; "-----"; " c "; "Name:"] ++ [NL])
              3 []
              [(lit "Name:", lit "b"); (lit "-----", lit " c ");
               (lit "Name:", [])]
              eq_refl (le_S _ _ (le_n 2)) eq_refl)))) eq_refl)).
Defined.

(** C1 fails as stated: two delimiter matches after a first line of text
    give three segments, and the first starts with that text, not with a
    delimiter. *)
Lemma split_two_delimiters_three_segments :
  let text := lines ["a"; "Name:"; "b"; "Name:"; "c"] in
  delimiter_matches text = 2 /\
  length (splitStudentsFromText text) = 3 /\
  splitStudentsFromText text
  = [lines ["a"; "Name:"]; lines ["b"; "Name:"]; lit "c"].
Proof. repeat split. Qed.









End SplitterSpec.

(** ** Facts about the aggregator *)

Module AggregatorFacts.
Import Str Values Aggregator.
Local Open Scope string_scope.
Local Open Scope list_scope.

Section Facts.
Variable rt : Runtime.

(** [parseFloat] of a plain value, which cannot throw. *)
Definition parsed (v : value) : float :=
  match parseFloat rt v with
  | Ok x => x
  | Throw _ => PrimFloat.nan
  end.

(** [parseFloat(q[key]) || dflt] on a question. *)
Definition defaulted (dflt : float) (key : string) (q : value) : float :=
  let x := parsed (field q key) in
  if truthy_number x then x else dflt.

Lemma parseFloat_plain v : plain v = true -> parseFloat rt v = Ok (parsed v).
Proof. unfold parsed. destruct v; simpl; try discriminate; reflexivity. Qed.

Lemma ToNumber_plain v : plain v = true -> exists x, ToNumber rt v = Ok x.
Proof.
  destruct v as [| |[|]| | | |]; simpl; try discriminate; eauto.
Qed.

Lemma score_or_plain dflt key q fields :
  q = VObj fields -> plain (field q key) = true ->
  score_or rt dflt key q = Ok (defaulted dflt key q).
Proof.
  intros -> Hp. unfold score_or, defaulted. simpl in *.
  now rewrite (parseFloat_plain _ Hp).
Qed.

Lemma score_or_question dflt q :
  is_question q = true ->
  score_or rt dflt "questionscore" q = Ok (defaulted dflt "questionscore" q) /\
  score_or rt dflt "maxscore" q = Ok (defaulted dflt "maxscore" q).
Proof.
  destruct q; try discriminate. intros H.
  unfold is_question in H. apply andb_true_iff in H. destruct H as [H1 H2].
  split; eapply score_or_plain; eauto.
Qed.

(** On a list of questions the reduction throws nothing and adds up the
    defaulted scores from left to right. *)
Lemma sum_items_questions dflt key items :
  key = "questionscore" \/ key = "maxscore" ->
  forallb is_question items = true ->
  sum_items rt dflt key items
  = Ok (fold_left (fun sum q => PrimFloat.add sum (defaulted dflt key q))
                  items PrimFloat.zero).
Proof.
  intros Hkey. unfold sum_items. generalize PrimFloat.zero as acc.
  induction items as [|q items IH]; intros acc Hq; [reflexivity|].
  simpl in Hq. apply andb_true_iff in Hq. destruct Hq as [Hq Hrest].
  destruct (score_or_question dflt q Hq) as [Hs Hm].
  cbn [fold_left bind].
  destruct Hkey as [-> | ->]; rewrite ?Hs, ?Hm; cbn [bind]; now apply IH.
Qed.

Lemma truthy_number_cases x :
  truthy_number x =
  if PrimFloat.is_nan x then false
  else if PrimFloat.is_zero x then false else true.
Proof.
  unfold truthy_number.
  now destruct (PrimFloat.is_nan x), (PrimFloat.is_zero x).
Qed.

Lemma coerced_score_defaulted q :
  plain (field q "questionscore") = true ->
  coerced_score rt q = defaulted PrimFloat.zero "questionscore" q.
Proof.
  intros Hp. unfold coerced_score, defaulted.
  rewrite (parseFloat_plain _ Hp). cbv zeta.
  generalize (parsed (field q "questionscore")) as x. intros x.
  rewrite truthy_number_cases.
  now destruct (PrimFloat.is_nan x), (PrimFloat.is_zero x).
Qed.

Lemma counted_max_defaulted q :
  plain (field q "maxscore") = true ->
  counted_max rt q = defaulted PrimFloat.one "maxscore" q.
Proof.
  intros Hp. unfold counted_max, defaulted.
  rewrite (parseFloat_plain _ Hp). cbv zeta.
  generalize (parsed (field q "maxscore")) as x. intros x.
  rewrite truthy_number_cases.
  now destruct (PrimFloat.is_nan x), (PrimFloat.is_zero x).
Qed.

Lemma is_question_plain q :
  is_question q = true ->
  plain (field q "questionscore") = true /\ plain (field q "maxscore") = true.
Proof.
  destruct q; try discriminate. intros H.
  now apply andb_true_iff in H.
Qed.

Lemma fold_left_ext_questions (f g : value -> float) items acc :
  (forall q, is_question q = true -> f q = g q) ->
  forallb is_question items = true ->
  fold_left (fun sum q => PrimFloat.add sum (f q)) items acc
  = fold_left (fun sum q => PrimFloat.add sum (g q)) items acc.
Proof.
  intros Hfg. revert acc.
  induction items as [|q items IH]; intros acc Hq; [reflexivity|].
  simpl in Hq. apply andb_true_iff in Hq. destruct Hq as [Hq Hrest].
  simpl. rewrite (Hfg q Hq). now apply IH.
Qed.

Lemma reduce_scores items :
  forallb is_question items = true ->
  reduce_sum rt PrimFloat.zero "questionscore" (VArr items)
  = Ok (sum_of (coerced_score rt) items).
Proof.
  intros Hq. cbn [reduce_sum].
  rewrite sum_items_questions by auto.
  f_equal. unfold sum_of. symmetry.
  apply fold_left_ext_questions; auto.
  intros q H. apply coerced_score_defaulted. now apply is_question_plain.
Qed.

Lemma reduce_maxima items :
  forallb is_question items = true ->
  reduce_sum rt PrimFloat.one "maxscore" (VArr items)
  = Ok (sum_of (counted_max rt) items).
Proof.
  intros Hq. cbn [reduce_sum].
  rewrite sum_items_questions by auto.
  f_equal. unfold sum_of. symmetry.
  apply fold_left_ext_questions; auto.
  intros q H. apply counted_max_defaulted. now apply is_question_plain.
Qed.

(** The percentage the program derives from a total and a worth. *)
Definition percentage (t w : float) : float :=
  if PrimFloat.ltb PrimFloat.zero w
  then PrimFloat.mul (PrimFloat.div t w) hundred
  else PrimFloat.zero.

Definition worth_of (testworth : value) (items : list value) : value :=
  if truthy testworth then testworth
  else VNum (sum_of (counted_max rt) items).

Lemma get_questions_object result items :
  get result "questions" = Ok (VArr items) ->
  exists fields, result = VObj fields /\ lookup fields "questions" = VArr items.
Proof.
  destruct result; simpl; try discriminate.
  intros H. inversion H. eauto.
Qed.

(** The run of [calculateTotals] on a result with a list of questions. *)
Lemma calculateTotals_questions result items :
  get result "questions" = Ok (VArr items) ->
  forallb is_question items = true ->
  plain (field result "testworth") = true ->
  plain (field result "total_score") = true ->
  exists w warned,
    ToNumber rt (worth_of (field result "testworth") items) = Ok w /\
    calculateTotals rt result
    = Ok ({| total := sum_of (coerced_score rt) items;
             worth := worth_of (field result "testworth") items;
             pct := percentage (sum_of (coerced_score rt) items) w |},
          warned).
Proof.
  intros Hget Hq Htw Hts.
  destruct (get_questions_object _ Hget) as (fields & -> & Hl).
  assert (Hw : exists w,
             ToNumber rt (worth_of (field (VObj fields) "testworth") items)
             = Ok w).
  { unfold worth_of. destruct (truthy _); [now apply ToNumber_plain|].
    simpl. eauto. }
  destruct Hw as (w & Hw).
  destruct (ToNumber_plain _ Hts) as (ts & Hn).
  unfold calculateTotals. cbn [truthy negb get bind]. rewrite Hl.
  cbn [truthy negb]. rewrite (reduce_scores _ Hq). cbn [bind].
  change (lookup fields "testworth") with (field (VObj fields) "testworth").
  change (lookup fields "total_score") with (field (VObj fields) "total_score").
  unfold worth_of in Hw.
  destruct (truthy (field (VObj fields) "testworth")) eqn:Etw.
  - cbn [bind]. rewrite Hw. cbn [bind]. rewrite Hn. cbn [bind].
    unfold worth_of. rewrite Etw.
    destruct (truthy (field (VObj fields) "total_score")); cbn [bind];
      eexists _, _; split; eauto.
  - rewrite (reduce_maxima _ Hq). cbn [bind]. rewrite Hw. cbn [bind].
    rewrite Hn. cbn [bind]. unfold worth_of. rewrite Etw.
    destruct (truthy (field (VObj fields) "total_score")); cbn [bind];
      eexists _, _; split; eauto.
Qed.

End Facts.

(** *** Replacing one property *)

Lemma lookup_app fa fb key :
  lookup (fa ++ fb) key
  = if has_key fa key then lookup fa key else lookup fb key.
Proof.
  induction fa as [|[k v] fa IH]; simpl; auto.
  destruct (String.eqb k key); simpl; auto.
Qed.

Lemma lookup_filter_other fa (p : string -> bool) key :
  p key = true ->
  lookup (filter (fun kv => p (fst kv)) fa) key = lookup fa key.
Proof.
  intros Hp. induction fa as [|[k v] fa IH]; simpl; auto.
  destruct (String.eqb k key) eqn:E.
  - apply String.eqb_eq in E. subst k. rewrite Hp. simpl.
    now rewrite String.eqb_refl.
  - destruct (p k); simpl; rewrite ?E; auto.
Qed.

Lemma has_key_filter_other fa (p : string -> bool) key :
  p key = true ->
  has_key (filter (fun kv => p (fst kv)) fa) key = has_key fa key.
Proof.
  intros Hp. induction fa as [|[k v] fa IH]; simpl; auto.
  destruct (String.eqb k key) eqn:E.
  - apply String.eqb_eq in E. subst k. rewrite Hp. simpl.
    now rewrite String.eqb_refl.
  - destruct (p k); simpl; rewrite ?E; auto.
Qed.

Lemma has_key_lookup fa key : has_key fa key = false -> lookup fa key = VUndefined.
Proof.
  induction fa as [|[k v] fa IH]; simpl; auto.
  destruct (String.eqb k key); simpl; [discriminate|auto].
Qed.

(** [{ ...a, ...b }] keeps the properties of [a] that [b] does not name
    and takes every property of [b]. *)
Lemma lookup_spread fa fb key :
  lookup (filter (fun kv => negb (has_key fb (fst kv))) fa ++ fb) key
  = if has_key fb key then lookup fb key else lookup fa key.
Proof.
  rewrite lookup_app.
  destruct (has_key fb key) eqn:E.
  - destruct (has_key (filter _ fa) key) eqn:E'; auto.
    exfalso. clear -E E'.
    induction fa as [|[k v] fa IH]; simpl in *; [discriminate|].
    destruct (has_key fb k) eqn:Ek; simpl in *; auto.
    destruct (String.eqb k key) eqn:Ekk; simpl in *; auto.
    apply String.eqb_eq in Ekk. congruence.
  - rewrite (has_key_filter_other fa (fun k => negb (has_key fb k)))
      by now rewrite E.
    rewrite (lookup_filter_other fa (fun k => negb (has_key fb k)))
      by now rewrite E.
    destruct (has_key fa key) eqn:Ea; auto.
    rewrite (has_key_lookup fa key Ea). now apply has_key_lookup.
Qed.

End AggregatorFacts.

(** ** The aggregator against its specification *)

Module AggregatorSpec.
Import Str Values Aggregator AggregatorFacts.
Local Open Scope string_scope.
Local Open Scope list_scope.

Ltac run_binds H :=
  repeat match type of H with
         | context [bind ?c _] =>
             let E := fresh "E" in
             destruct c eqn:E; cbn [bind] in H; try discriminate
         | context [if ?b then _ else _] =>
             let E := fresh "E" in
             destruct b eqn:E; cbn [bind] in H; try discriminate
         end.

(** C9, as amended: on an absent or empty result, and on a result whose
    [questions] is missing or falsy, [calculateTotals] returns
    [{total: 0, worth: 0, pct: 0}] and does not throw; on a result whose
    [questions] is truthy and not a list it throws a [TypeError]. *)
Theorem absent_result_gives_zeros (rt : Runtime) (result : value) :
  (truthy result = false \/
   (exists q, get result "questions" = Ok q /\ truthy q = false) ->
   calculateTotals rt result
   = Ok ({| total := PrimFloat.zero; worth := VNum PrimFloat.zero;
            pct := PrimFloat.zero |}, [])) /\
  (forall q,
      truthy result = true -> get result "questions" = Ok q ->
      truthy q = true -> (forall items, q <> VArr items) ->
      calculateTotals rt result = Throw TypeError).
Proof.
  unfold calculateTotals. split.
  - intros [H | (q & Hq & Hf)].
    + now rewrite H.
    + destruct (truthy result); [|reflexivity].
      cbn [negb]. rewrite Hq. cbn [bind]. now rewrite Hf.
  - intros q Hr Hq Ht Hn. rewrite Hr, Hq. cbn [negb bind].
    rewrite Ht. cbn [negb].
    destruct q as [| | | | |items|]; try reflexivity.
    now contradiction (Hn items).
Qed.

Lemma absent_result_gives_zeros_witness :
  calculateTotals no_text_runtime VUndefined = Ok (zeros, []) /\
  calculateTotals no_text_runtime VNull = Ok (zeros, []) /\
  calculateTotals no_text_runtime (VObj []) = Ok (zeros, []) /\
  calculateTotals no_text_runtime
    (VObj [("error", VStr (lit "Could not parse GPT response"));
           ("raw", VStr (lit "no"))]) = Ok (zeros, []) /\
  calculateTotals no_text_runtime (VObj [("questions", VObj [])])
  = Throw TypeError.
Proof.
  split; [|split; [|split; [|split]]].
  - apply (proj1 (absent_result_gives_zeros no_text_runtime VUndefined)).
    left. reflexivity.
  - apply (proj1 (absent_result_gives_zeros no_text_runtime VNull)).
    left. reflexivity.
  - apply (proj1 (absent_result_gives_zeros no_text_runtime (VObj []))).
    right. exists VUndefined. split; reflexivity.
  - apply (proj1 (absent_result_gives_zeros no_text_runtime
             (VObj [("error", VStr (lit "Could not parse GPT response"));
                    ("raw", VStr (lit "no"))]))).
    right. exists VUndefined. split; reflexivity.
  - apply (proj2 (absent_result_gives_zeros no_text_runtime
                    (VObj [("questions", VObj [])]))
                 (VObj []) eq_refl eq_refl eq_refl).
    intros items H. discriminate H.
Defined.

(** C9 fails as stated: a result whose [questions] is there but is not a
    list, a text, an object, a number or [true], lacks a question list,
    and [calculateTotals] throws on it. *)
Lemma non_list_questions_throw :
  calculateTotals no_text_runtime (VObj [("questions", VStr (lit "none"))])
  = Throw TypeError /\
  calculateTotals no_text_runtime (VObj [("questions", VObj [])])
  = Throw TypeError /\
  calculateTotals no_text_runtime (VObj [("questions", VNum 5)])
  = Throw TypeError /\
  calculateTotals no_text_runtime (VObj [("questions", VBool true)])
  = Throw TypeError.
Proof. repeat split. Qed.

(** C6: on a result with a list of questions the total is the sum, from
    left to right, of the scores coerced to numbers, a missing or
    non-numeric score counting 0; [total_score] has no part in it, and
    the "Total Score" cell of the CSV export holds this total. *)
Theorem total_is_sum_of_coerced_scores
        (rt : Runtime) (result : value) (items : list value) :
  get result "questions" = Ok (VArr items) ->
  forallb is_question items = true ->
  plain (field result "testworth") = true ->
  plain (field result "total_score") = true ->
  (exists t warned,
      calculateTotals rt result = Ok (t, warned) /\
      total t = sum_of (coerced_score rt) items) /\
  csv_total_score rt result = Ok (sum_of (coerced_score rt) items) /\
  (forall reported,
      plain reported = true ->
      exists t warned,
        calculateTotals rt (spread result (VObj [("total_score", reported)]))
        = Ok (t, warned) /\
        total t = sum_of (coerced_score rt) items) /\
  (forall q, field q "questionscore" = VUndefined ->
             coerced_score rt q = PrimFloat.zero) /\
  (forall q, parseFloat rt (field q "questionscore") = Ok PrimFloat.nan ->
             coerced_score rt q = PrimFloat.zero).
Proof.
  intros Hget Hq Htw Hts.
  destruct (calculateTotals_questions rt result Hget Hq Htw Hts)
    as (w & warned & _ & Hrun).
  destruct (get_questions_object _ Hget) as (fields & -> & Hl).
  split; [|split; [|split; [|split]]].
  - eexists _, _. split; [exact Hrun|reflexivity].
  - unfold csv_total_score. cbn [truthy]. now rewrite Hrun.
  - intros reported Hr.
    cbn [spread].
    set (fields' := filter _ fields ++ _).
    assert (Hother : forall key, key <> "total_score" ->
                                 lookup fields' key = lookup fields key).
    { intros key Hk. unfold fields'. rewrite lookup_spread.
      cbn [has_key lookup].
      replace (String.eqb "total_score" key) with false; [reflexivity|].
      symmetry. apply String.eqb_neq. congruence. }
    destruct (calculateTotals_questions rt (VObj fields') (items := items))
      as (w' & warned' & _ & Hrun'); auto.
    + cbn [get]. rewrite Hother by discriminate. now rewrite Hl.
    + cbn [field opt_get]. rewrite Hother by discriminate. exact Htw.
    + cbn [field opt_get]. unfold fields'. rewrite lookup_spread. exact Hr.
    + eexists _, _. split; [exact Hrun'|reflexivity].
  - intros q H. unfold coerced_score. now rewrite H.
  - intros q H. unfold coerced_score. now rewrite H.
Qed.

Definition graded_sample : value :=
  VObj [("student_name", VStr (lit "Ada"));
        ("total_score", VNum 9);
        ("questions",
         VArr [VObj [("id", VStr (lit "q1")); ("questionscore", VNum 2)];
               VObj [("id", VStr (lit "q2"))];
               VObj [("id", VStr (lit "q3")); ("questionscore", VNum 0.5)]])].

Lemma total_is_sum_of_coerced_scores_witness :
  csv_total_score no_text_runtime graded_sample = Ok 2.5%float.
Proof.
  apply (proj1 (proj2 (total_is_sum_of_coerced_scores no_text_runtime
           graded_sample
           (items := [VObj [("id", VStr (lit "q1")); ("questionscore", VNum 2)];
                      VObj [("id", VStr (lit "q2"))];
                      VObj [("id", VStr (lit "q3"));
                            ("questionscore", VNum 0.5)]])
           eq_refl eq_refl eq_refl eq_refl))).
Defined.

(** C7, as amended: the worth is [testworth] when that is truthy, and
    otherwise the sum over the questions of [maxscore] read as a number,
    where a missing, non-numeric or zero [maxscore] counts one point. *)
Theorem worth_is_declared_or_counted_sum
        (rt : Runtime) (result : value) (items : list value) :
  get result "questions" = Ok (VArr items) ->
  forallb is_question items = true ->
  plain (field result "testworth") = true ->
  plain (field result "total_score") = true ->
  (exists t warned,
      calculateTotals rt result = Ok (t, warned) /\
      (truthy (field result "testworth") = true ->
       worth t = field result "testworth") /\
      (truthy (field result "testworth") = false ->
       worth t = VNum (sum_of (counted_max rt) items))) /\
  (forall q, field q "maxscore" = VUndefined ->
             counted_max rt q = PrimFloat.one) /\
  (forall q, parseFloat rt (field q "maxscore") = Ok PrimFloat.nan ->
             counted_max rt q = PrimFloat.one) /\
  (forall q, field q "maxscore" = VNum PrimFloat.zero ->
             counted_max rt q = PrimFloat.one).
Proof.
  intros Hget Hq Htw Hts.
  destruct (calculateTotals_questions rt result Hget Hq Htw Hts)
    as (w & warned & _ & Hrun).
  split; [|split; [|split]].
  - eexists _, _. split; [exact Hrun|]. cbn [worth]. unfold worth_of.
    split; intros ->; reflexivity.
  - intros q H. unfold counted_max. now rewrite H.
  - intros q H. unfold counted_max. now rewrite H.
  - intros q H. unfold counted_max. now rewrite H.
Qed.

Lemma worth_is_declared_or_counted_sum_witness :
  exists t warned,
    calculateTotals no_text_runtime graded_sample = Ok (t, warned) /\
    worth t = VNum 3.
Proof.
  destruct (proj1 (worth_is_declared_or_counted_sum no_text_runtime
              graded_sample
              (items := [VObj [("id", VStr (lit "q1"));
                               ("questionscore", VNum 2)];
                         VObj [("id", VStr (lit "q2"))];
                         VObj [("id", VStr (lit "q3"));
                               ("questionscore", VNum 0.5)]])
              eq_refl eq_refl eq_refl eq_refl))
    as (t & warned & Hrun & _ & Hsum).
  exists t, warned. split; [exact Hrun|].
  apply Hsum. reflexivity.
Defined.

(** C7 fails as stated: a question that declares a maximum of 0 is
    counted one point, so the worth is 1 where the sum of the declared
    maxima is 0. *)
Lemma zero_maxscore_counts_one_point :
  let q := VObj [("questionscore", VNum 1); ("maxscore", VNum 0)] in
  calculateTotals no_text_runtime (VObj [("questions", VArr [q])])
  = Ok ({| total := 1; worth := VNum 1; pct := 100 |}, []) /\
  sum_of (coerced_max no_text_runtime) [q] = 0%float /\
  PrimFloat.eqb 1 0 = false.
Proof. repeat split. Qed.

(** C8: whenever [calculateTotals] returns, the percentage is
    [(total / worth) * 100] if the worth is greater than 0 and 0 if not;
    in particular it is 0 for a worth of 0, and no division by 0 takes
    place. *)
Theorem percentage_is_guarded
        (rt : Runtime) (result : value) (t : totals) (warned : list warning) :
  calculateTotals rt result = Ok (t, warned) ->
  exists w,
    ToNumber rt (worth t) = Ok w /\
    (PrimFloat.ltb PrimFloat.zero w = true ->
     pct t = PrimFloat.mul (PrimFloat.div (total t) w) hundred) /\
    (PrimFloat.ltb PrimFloat.zero w = false -> pct t = PrimFloat.zero) /\
    (w = PrimFloat.zero \/ w = PrimFloat.neg_zero -> pct t = PrimFloat.zero).
Proof.
  intros H.
  assert (Hz : exists w,
             ToNumber rt (worth t) = Ok w /\
             pct t = if PrimFloat.ltb PrimFloat.zero w
                     then PrimFloat.mul (PrimFloat.div (total t) w) hundred
                     else PrimFloat.zero).
  { unfold calculateTotals in H.
    destruct (truthy result); cbn [negb] in H.
    2:{ inversion H; subst. exists PrimFloat.zero. split; reflexivity. }
    destruct (get result "questions") as [questions|] eqn:Eq;
      cbn [bind] in H; [|discriminate].
    destruct (truthy questions); cbn [negb] in H.
    2:{ inversion H; subst. exists PrimFloat.zero. split; reflexivity. }
    run_binds H; inversion H; subst; cbn [worth pct total];
      match goal with
      | Hn : ToNumber rt _ = Ok ?w, Hlt : PrimFloat.ltb _ ?w = _ |- _ =>
          exists w; split; [exact Hn | rewrite Hlt; reflexivity]
      end. }
  destruct Hz as (w & Hw & Hp). exists w. split; [exact Hw|].
  split; [|split].
  - intros E. now rewrite E in Hp.
  - intros E. now rewrite E in Hp.
  - intros [-> | ->]; exact Hp.
Qed.

Lemma percentage_is_guarded_witness :
  exists w,
    ToNumber no_text_runtime (VNum 3) = Ok w /\
    (PrimFloat.ltb PrimFloat.zero w = true ->
     PrimFloat.mul (PrimFloat.div 2.5 3) 100
     = PrimFloat.mul (PrimFloat.div 2.5 w) hundred).
Proof.
  destruct (percentage_is_guarded no_text_runtime graded_sample
              (t := {| total := 2.5; worth := VNum 3;
                       pct := PrimFloat.mul (PrimFloat.div 2.5 3) 100 |})
              (warned := [Mismatch (VNum 9) 2.5]) eq_refl)
    as (w & Hw & Hp & _).
  exists w. split; [exact Hw|exact Hp].
Defined.

End AggregatorSpec.

(** ** Facts about the grading lifecycle *)

Module GradingFacts.
Import Str Values Grading AggregatorFacts.
Local Open Scope string_scope.
Local Open Scope list_scope.

Lemma nth_set_index : forall l i v, nth i (set_index l i v) VUndefined = v.
Proof.
  intros l i. revert l.
  induction i as [|i IH]; intros [|x l] v; simpl; auto.
Qed.

(** After an update the record holds the updated properties and, for the
    others, what it held before. *)
Lemma record_field_update index fields students key :
  record_field (updateStudent index (VObj fields) students) index key
  = if has_key fields key then lookup fields key
    else record_field students index key.
Proof.
  unfold record_field, updateStudent. rewrite nth_set_index.
  destruct (nth index students VUndefined) as [| | | | | |fa];
    cbn [spread opt_get]; try apply lookup_spread;
    (destruct (has_key fields key) eqn:E; [reflexivity|];
     now apply has_key_lookup).
Qed.

Section Lifecycle.
Variable rt : Runtime.

Lemma ticks_keep index key :
  key <> "status" -> key <> "elapsed" ->
  forall n seconds students,
    record_field (snd (ticks rt index n seconds students)) index key
    = record_field students index key.
Proof.
  intros Hs He. induction n as [|n IH]; intros seconds students; [reflexivity|].
  cbn [ticks]. rewrite IH. unfold tick_update.
  rewrite record_field_update. cbn [has_key].
  replace (String.eqb "status" key) with false
    by (symmetry; apply String.eqb_neq; congruence).
  replace (String.eqb "elapsed" key) with false
    by (symmetry; apply String.eqb_neq; congruence).
  reflexivity.
Qed.

Lemma failed_status index students :
  record_field (failed index students) index "status" = VStr (lit "error").
Proof. unfold failed. now rewrite record_field_update. Qed.

Lemma failed_keep index students key :
  key <> "status" ->
  record_field (failed index students) index key
  = record_field students index key.
Proof.
  intros Hk. unfold failed. rewrite record_field_update. cbn [has_key].
  replace (String.eqb "status" key) with false
    by (symmetry; apply String.eqb_neq; congruence).
  reflexivity.
Qed.

(** The students array when the reply is about to be read or the call
    has failed: only [status] and [elapsed] have changed. *)
Definition before_last (r : run) (index : nat) (students : list value)
  : list value :=
  let s0 := updateStudent index
              (VObj [("status", VStr (lit "sent"));
                     ("elapsed", VNum PrimFloat.zero)]) students in
  let st1 := ticks rt index (ticks_waiting r) PrimFloat.zero s0 in
  match fetched r with
  | None => snd st1
  | Some resp =>
      snd (ticks rt index (ticks_reading r) (fst st1)
                 (updateStudent index
                    (VObj [("status", VStr (lit "received"))]) (snd st1)))
  end.

Lemma before_last_keep r index students key :
  key <> "status" -> key <> "elapsed" ->
  record_field (before_last r index students) index key
  = record_field students index key.
Proof.
  intros Hs He. unfold before_last.
  assert (Hsent : forall l,
             record_field
               (updateStudent index
                  (VObj [("status", VStr (lit "sent"));
                         ("elapsed", VNum PrimFloat.zero)]) l) index key
             = record_field l index key).
  { intros l. rewrite record_field_update. cbn [has_key].
    replace (String.eqb "status" key) with false
      by (symmetry; apply String.eqb_neq; congruence).
    replace (String.eqb "elapsed" key) with false
      by (symmetry; apply String.eqb_neq; congruence).
    reflexivity. }
  destruct (fetched r).
  - rewrite ticks_keep by assumption.
    rewrite record_field_update. cbn [has_key].
    replace (String.eqb "status" key) with false
      by (symmetry; apply String.eqb_neq; congruence).
    cbn [orb]. rewrite ticks_keep by assumption. apply Hsent.
  - rewrite ticks_keep by assumption. apply Hsent.
Qed.

(** [gradeOne] ends with one last update on that array. *)
Lemma gradeOne_last r student index students final :
  gradeOne rt r student index students = Ok final ->
  final =
  match fetched r with
  | None => failed index (before_last r index students)
  | Some resp =>
      match json resp with
      | None => failed index (before_last r index students)
      | Some data =>
          display rt index (reply_text data) (now r)
                  (before_last r index students)
      end
  end.
Proof.
  unfold gradeOne, before_last.
  destruct (get student "name"); cbn [bind]; [|discriminate].
  destruct (ticks rt index (ticks_waiting r) _ _) as [seconds s1].
  cbn [fst snd].
  destruct (fetched r) as [resp|]; [|now intros [= <-]].
  destruct (ticks rt index (ticks_reading r) _ _) as [seconds' s3].
  cbn [snd]. now intros [= <-].
Qed.

Lemma display_string index t now students :
  let final := display rt index (VStr t) now students in
  record_field final index "status" = VStr (lit "displayed") /\
  record_field final index "gradedAt" = VStr now /\
  record_field final index "result"
  = match JSON_parse rt (cleaned_text t) with
    | Some v => v
    | None => parse_error (VStr t)
    end.
Proof.
  cbv zeta. unfold display. rewrite !record_field_update. auto.
Qed.

Lemma display_cases index text now students :
  let final := display rt index text now students in
  (exists t, text = VStr t /\
             record_field final index "status" = VStr (lit "displayed") /\
             record_field final index "gradedAt" = VStr now) \/
  (record_field final index "status" = VStr (lit "error") /\
   forall key, key <> "status" ->
               record_field final index key = record_field students index key).
Proof.
  cbv zeta.
  destruct text as [| | | |t| |];
    try (right; split; [apply failed_status | intros; now apply failed_keep]).
  left. exists t. split; auto.
  destruct (display_string index t now students) as (H1 & H2 & _). auto.
Qed.

End Lifecycle.

End GradingFacts.

(** ** The grading lifecycle against its specification *)

Module GradingSpec.
Import Str Values Grading AggregatorFacts GradingFacts.
Local Open Scope string_scope.
Local Open Scope list_scope.

(** A property of the record at [index] once [gradeOne] is over. *)
Definition final_field (rt : Runtime) (r : run) (student : value)
           (index : nat) (students : list value) (key : string) : value :=
  match gradeOne rt r student index students with
  | Ok final => record_field final index key
  | Throw _ => VUndefined
  end.

(** C2, as amended: when [fetch] rejects (the endpoint cannot be
    reached) or the body of the response cannot be read as JSON, the
    record ends in the [error] status and keeps the result and the
    timestamp it had.  A reply text that [JSON.parse] refuses is another
    outcome: the record ends [displayed], holding the parse error and the
    raw text. *)
Theorem transport_failure_gives_error
        (rt : Runtime) (r : run) (student : value) (index : nat)
        (students final : list value) :
  gradeOne rt r student index students = Ok final ->
  (fetched r = None \/ (exists resp, fetched r = Some resp /\ json resp = None) ->
   record_field final index "status" = VStr (lit "error") /\
   record_field final index "result" = record_field students index "result" /\
   record_field final index "gradedAt"
   = record_field students index "gradedAt") /\
  (forall resp data t,
      fetched r = Some resp -> json resp = Some data ->
      reply_text data = VStr t -> JSON_parse rt (cleaned_text t) = None ->
      record_field final index "status" = VStr (lit "displayed") /\
      record_field final index "result" = parse_error (VStr t)).
Proof.
  intros Hrun. apply gradeOne_last in Hrun. split.
  - intros Hfail.
    assert (Hf : final = failed index (before_last rt r index students)).
    { destruct Hfail as [Hn | (resp & Hs & Hj)].
      - now rewrite Hn in Hrun.
      - now rewrite Hs, Hj in Hrun. }
    rewrite Hf. split; [apply failed_status|].
    split; rewrite failed_keep, before_last_keep; auto; discriminate.
  - intros resp data t Hs Hj Ht Hp.
    rewrite Hs, Hj, Ht in Hrun. subst final.
    destruct (display_string rt index t (now r)
                (before_last rt r index students)) as (H1 & _ & H3).
    rewrite Hp in H3. auto.
Qed.

Definition sample_students : list value :=
  [new_student (lit "scan.pdf-Student1") (lit "1. Paris")].

Definition unreachable : run :=
  {| ticks_waiting := 2; fetched := None; ticks_reading := 0;
     now := lit "2024-05-01T10:00:00.000Z" |}.

Lemma transport_failure_gives_error_witness :
  final_field no_text_runtime unreachable (nth 0 sample_students VUndefined)
              0 sample_students "status" = VStr (lit "error") /\
  final_field no_text_runtime unreachable (nth 0 sample_students VUndefined)
              0 sample_students "result" = VNull.
Proof.
  unfold final_field.
  destruct (gradeOne no_text_runtime unreachable
              (nth 0 sample_students VUndefined) 0 sample_students)
    as [final|] eqn:E; [|discriminate].
  destruct (proj1 (transport_failure_gives_error no_text_runtime unreachable
                     (nth 0 sample_students VUndefined) 0 sample_students E)
                  (or_introl eq_refl))
    as (Hs & Hr & _).
  split; [exact Hs|exact Hr].
Defined.

(** The answer of the endpoint to a wrong key. *)
Definition unauthorized : run :=
  {| ticks_waiting := 0;
     fetched :=
       Some {| http_status := 401;
               json := Some (VObj [("error",
                               VObj [("message",
                                      VStr (lit "Incorrect API key provided"));
                                     ("code",
                                      VStr (lit "invalid_api_key"))])]) |};
     ticks_reading := 0;
     now := lit "2024-05-01T10:00:00.000Z" |}.

(** C2 fails as stated: a response with a non-success status whose body
    is JSON does not end in [error]; the record is [displayed] and a
    result, the parse error, is stored on it. *)
Lemma non_success_status_is_displayed :
  option_map http_status (fetched unauthorized) = Some 401 /\
  final_field no_text_runtime unauthorized (nth 0 sample_students VUndefined)
              0 sample_students "status" = VStr (lit "displayed") /\
  final_field no_text_runtime unauthorized (nth 0 sample_students VUndefined)
              0 sample_students "result" = parse_error (VStr []).
Proof. repeat split. Qed.

(** C5, as amended: [gradedAt] is set whenever the record ends
    [displayed], that is on every reply text, whether [JSON.parse]
    accepts it or not; it keeps its former value when the record ends in
    [error]. *)
Theorem gradedAt_set_when_displayed
        (rt : Runtime) (r : run) (student : value) (index : nat)
        (students final : list value) :
  gradeOne rt r student index students = Ok final ->
  ((record_field final index "status" = VStr (lit "displayed") /\
    record_field final index "gradedAt" = VStr (now r)) \/
   (record_field final index "status" = VStr (lit "error") /\
    record_field final index "gradedAt"
    = record_field students index "gradedAt")) /\
  (forall resp data t,
      fetched r = Some resp -> json resp = Some data ->
      reply_text data = VStr t ->
      record_field final index "gradedAt" = VStr (now r) /\
      (JSON_parse rt (cleaned_text t) = None ->
       record_field final index "result" = parse_error (VStr t))).
Proof.
  intros Hrun. apply gradeOne_last in Hrun. split.
  - assert (Hfailed : forall l,
               l = failed index (before_last rt r index students) ->
               record_field l index "status" = VStr (lit "error") /\
               record_field l index "gradedAt"
               = record_field students index "gradedAt").
    { intros l ->. split; [apply failed_status|].
      rewrite failed_keep, before_last_keep; auto; discriminate. }
    destruct (fetched r) as [resp|]; [|right; now apply Hfailed].
    destruct (json resp) as [data|]; [|right; now apply Hfailed].
    subst final.
    destruct (display_cases rt index (reply_text data) (now r)
                (before_last rt r index students))
      as [(t & _ & H1 & H2) | (H1 & H2)].
    + left. auto.
    + right. split; [exact H1|].
      rewrite H2, before_last_keep; auto; discriminate.
  - intros resp data t Hs Hj Ht.
    rewrite Hs, Hj, Ht in Hrun. subst final.
    destruct (display_string rt index t (now r)
                (before_last rt r index students)) as (_ & H2 & H3).
    split; [exact H2|]. intros Hp. now rewrite Hp in H3.
Qed.

(** A reply that is prose, not JSON. *)
Definition prose_reply : run :=
  {| ticks_waiting := 1;
     fetched :=
       Some {| http_status := 200;
               json := Some (VObj [("choices",
                               VArr [VObj [("message",
                                       VObj [("role", VStr (lit "assistant"));
                                             ("content",
                                              VStr (lit "I cannot grade this."))])]])]) |};
     ticks_reading := 1;
     now := lit "2024-05-01T10:00:00.000Z" |}.

Lemma gradedAt_set_when_displayed_witness :
  final_field no_text_runtime prose_reply (nth 0 sample_students VUndefined)
              0 sample_students "gradedAt"
  = VStr (lit "2024-05-01T10:00:00.000Z").
Proof.
  unfold final_field.
  destruct (gradeOne no_text_runtime prose_reply
              (nth 0 sample_students VUndefined) 0 sample_students)
    as [final|] eqn:E; [|discriminate].
  apply (proj1 (proj2 (gradedAt_set_when_displayed no_text_runtime prose_reply
                         (nth 0 sample_students VUndefined) 0
                         sample_students E)
                      _ _ (lit "I cannot grade this.")
                      eq_refl eq_refl eq_refl)).
Defined.

(** C5 fails as stated: the reply is not JSON, parsing fails, and the
    record still gets its timestamp, next to the parse error. *)
Lemma unparsable_reply_is_timestamped :
  JSON_parse no_text_runtime (cleaned_text (lit "I cannot grade this.")) = None /\
  final_field no_text_runtime prose_reply (nth 0 sample_students VUndefined)
              0 sample_students "result"
  = parse_error (VStr (lit "I cannot grade this.")) /\
  final_field no_text_runtime prose_reply (nth 0 sample_students VUndefined)
              0 sample_students "gradedAt"
  = VStr (lit "2024-05-01T10:00:00.000Z") /\
  record_field sample_students 0 "gradedAt" = VNull.
Proof. repeat split. Qed.

End GradingSpec.

(** ** More on the grading lifecycle *)

Module LifecycleFacts.
Import Str Values Grading AggregatorFacts GradingFacts SplitterFacts.
Local Open Scope string_scope.
Local Open Scope list_scope.

Lemma nth_set_index_other : forall l i j v,
  j <> i -> nth j (set_index l i v) VUndefined = nth j l VUndefined.
Proof.
  intros l i. revert l.
  induction i as [|i IH]; intros [|x l] [|j] v Hj; simpl; auto;
    try congruence.
  - now destruct j.
  - rewrite IH by congruence. now destruct j.
Qed.

Lemma length_set_index : forall l i v,
  length (set_index l i v) = Nat.max (length l) (S i).
Proof.
  intros l i. revert l.
  induction i as [|i IH]; intros [|x l] v; cbn [set_index length];
    rewrite ?IH; cbn [length]; lia.
Qed.

Lemma updateStudent_other index updates students j :
  j <> index ->
  nth j (updateStudent index updates students) VUndefined
  = nth j students VUndefined.
Proof. intros Hj. unfold updateStudent. now apply nth_set_index_other. Qed.

Lemma updateStudent_length index updates students :
  length (updateStudent index updates students)
  = Nat.max (length students) (S index).
Proof. unfold updateStudent. apply length_set_index. Qed.

Section Frame.
Variable rt : Runtime.

Lemma ticks_other index j :
  j <> index ->
  forall n seconds students,
    nth j (snd (ticks rt index n seconds students)) VUndefined
    = nth j students VUndefined.
Proof.
  intros Hj. induction n as [|n IH]; intros seconds students; [reflexivity|].
  cbn [ticks]. rewrite IH. now apply updateStudent_other.
Qed.

Lemma ticks_length index :
  forall n seconds students,
    length (snd (ticks rt index n seconds students))
    = match n with
      | O => length students
      | S _ => Nat.max (length students) (S index)
      end.
Proof.
  induction n as [|n IH]; intros seconds students; [reflexivity|].
  cbn [ticks]. rewrite IH, updateStudent_length.
  destruct n; lia.
Qed.

Lemma before_last_other r index students j :
  j <> index ->
  nth j (before_last rt r index students) VUndefined
  = nth j students VUndefined.
Proof.
  intros Hj. unfold before_last.
  destruct (fetched r);
    rewrite ?ticks_other, ?updateStudent_other, ?ticks_other,
            ?updateStudent_other by assumption; reflexivity.
Qed.

Lemma before_last_length r index students :
  length (before_last rt r index students)
  = Nat.max (length students) (S index).
Proof.
  unfold before_last.
  destruct (fetched r);
    rewrite ?ticks_length, ?updateStudent_length, ?ticks_length,
            ?updateStudent_length;
    repeat match goal with |- context [match ?n with O => _ | S _ => _ end] =>
                             destruct n
           end; lia.
Qed.

Lemma display_other index text now students j :
  j <> index ->
  nth j (display rt index text now students) VUndefined
  = nth j students VUndefined.
Proof.
  intros Hj. unfold display, failed.
  destruct text; now apply updateStudent_other.
Qed.

Lemma display_length index text now students :
  length (display rt index text now students)
  = Nat.max (length students) (S index).
Proof.
  unfold display, failed. destruct text; apply updateStudent_length.
Qed.

Lemma display_keep index text now students key :
  key <> "status" -> key <> "result" -> key <> "gradedAt" ->
  record_field (display rt index text now students) index key
  = record_field students index key.
Proof.
  intros Hs Hr Hg. unfold display, failed.
  destruct text; rewrite record_field_update; cbn [has_key];
    repeat match goal with
           | |- context [String.eqb ?a key] =>
               replace (String.eqb a key) with false
                 by (symmetry; apply String.eqb_neq; congruence)
           end; reflexivity.
Qed.

(** The last step of [gradeOne], whatever it is. *)
Definition last_step (r : run) (index : nat) (students : list value)
  : list value :=
  match fetched r with
  | None => failed index students
  | Some resp =>
      match json resp with
      | None => failed index students
      | Some data => display rt index (reply_text data) (now r) students
      end
  end.

Lemma gradeOne_last_step r student index students final :
  gradeOne rt r student index students = Ok final ->
  final = last_step r index (before_last rt r index students).
Proof.
  intros H. apply gradeOne_last in H. rewrite H. unfold last_step.
  destruct (fetched r) as [resp|]; [|reflexivity].
  now destruct (json resp).
Qed.

Lemma last_step_other r index students j :
  j <> index ->
  nth j (last_step r index students) VUndefined = nth j students VUndefined.
Proof.
  intros Hj. unfold last_step, failed.
  destruct (fetched r) as [resp|]; [destruct (json resp)|];
    auto using display_other, updateStudent_other.
Qed.

Lemma last_step_length r index students :
  length (last_step r index students) = Nat.max (length students) (S index).
Proof.
  unfold last_step, failed.
  destruct (fetched r) as [resp|]; [destruct (json resp)|];
    auto using display_length, updateStudent_length.
Qed.

Lemma last_step_keep r index students key :
  key <> "status" -> key <> "result" -> key <> "gradedAt" ->
  record_field (last_step r index students) index key
  = record_field students index key.
Proof.
  intros Hs Hr Hg. unfold last_step.
  destruct (fetched r) as [resp|]; [destruct (json resp)|];
    auto using display_keep, failed_keep.
Qed.

(** A record is settled when it shows [displayed] or [error]. *)
Definition settled (students : list value) (index : nat) : Prop :=
  record_field students index "status" = VStr (lit "displayed") \/
  record_field students index "status" = VStr (lit "error").

Lemma last_step_settled r index students :
  settled (last_step r index students) index.
Proof.
  unfold last_step, settled.
  destruct (fetched r) as [resp|]; [destruct (json resp) as [data|]|];
    try (right; apply failed_status).
  destruct (display_cases rt index (reply_text data) (now r) students)
    as [(t & _ & H & _) | (H & _)]; auto.
Qed.

Lemma gradeOne_other r student index students final j :
  gradeOne rt r student index students = Ok final -> j <> index ->
  nth j final VUndefined = nth j students VUndefined.
Proof.
  intros H Hj. apply gradeOne_last_step in H. subst final.
  rewrite last_step_other by assumption. now apply before_last_other.
Qed.

Lemma gradeOne_length r student index students final :
  gradeOne rt r student index students = Ok final ->
  length final = Nat.max (length students) (S index).
Proof.
  intros H. apply gradeOne_last_step in H. subst final.
  rewrite last_step_length, before_last_length. lia.
Qed.

Lemma gradeOne_settled r student index students final :
  gradeOne rt r student index students = Ok final -> settled final index.
Proof.
  intros H. apply gradeOne_last_step in H. subst final.
  apply last_step_settled.
Qed.

Lemma gradeOne_record r fields index students :
  exists final, gradeOne rt r (VObj fields) index students = Ok final.
Proof.
  unfold gradeOne. cbn [get bind].
  destruct (ticks rt index (ticks_waiting r) _ _) as [seconds s1].
  destruct (fetched r) as [resp|]; [|eauto].
  destruct (ticks rt index (ticks_reading r) _ _) as [seconds' s3]. eauto.
Qed.

End Frame.

Lemma get_opt_get v key x : get v key = Ok x -> opt_get v key = x.
Proof. destruct v; simpl; intros H; inversion H; reflexivity. Qed.

(** *** Trimming a padded text *)

Lemma drop_spaces_app ws s :
  Delimiter.blank ws = true -> drop_spaces (ws ++ s) = drop_spaces s.
Proof.
  induction ws as [|x ws IH]; simpl; auto.
  intros H. apply andb_true_iff in H. destruct H as [Hx Hws].
  rewrite Hx. auto.
Qed.

Lemma trim_padded ws1 s ws2 :
  Delimiter.blank ws1 = true -> Delimiter.blank ws2 = true ->
  RegexFacts.head_rejected is_space s ->
  RegexFacts.head_rejected is_space (rev s) ->
  trim (ws1 ++ s ++ ws2) = s.
Proof.
  intros H1 H2 Hs Hr. unfold trim.
  rewrite drop_spaces_app by assumption.
  destruct s as [|x s].
  - simpl. rewrite (drop_spaces_blank _ H2). reflexivity.
  - simpl in Hs. cbn [app drop_spaces]. rewrite Hs.
    change (x :: s ++ ws2) with ((x :: s) ++ ws2).
    rewrite rev_app_distr, drop_spaces_app
      by (unfold Delimiter.blank; now rewrite RegexFacts.forallb_rev).
    rewrite (RegexFacts.drop_spaces_head _ Hr). apply rev_involutive.
Qed.

Lemma drop_letters_tag tag s :
  forallb is_letter tag = true -> drop_letters (tag ++ NL :: s) = NL :: s.
Proof.
  induction tag as [|c tag IH]; simpl; auto.
  intros H. apply andb_true_iff in H. destruct H as [Hc Ht].
  rewrite Hc. auto.
Qed.

End LifecycleFacts.

(** ** More of the grading lifecycle against the source *)

Module LifecycleSpec.
Import Str Values Grading AggregatorFacts GradingFacts LifecycleFacts App.
Local Open Scope string_scope.
Local Open Scope list_scope.

Definition FENCE : jsstring := [BACKTICK; BACKTICK; BACKTICK].

(** X1: a reply wrapped in a code fence, with white space around it and
    letters as the language tag, reaches [JSON.parse] as the text between
    the line of the opening fence and the closing fence. *)
Theorem fenced_reply_is_unwrapped (ws1 tag inner ws2 : jsstring) :
  Delimiter.blank ws1 = true -> Delimiter.blank ws2 = true ->
  forallb is_letter tag = true ->
  cleaned_text (ws1 ++ (FENCE ++ tag ++ NL :: inner ++ FENCE) ++ ws2) = inner.
Proof.
  intros H1 H2 Ht. unfold cleaned_text.
  rewrite trim_padded; auto.
  - cbn [FENCE app starts_with_fence]. rewrite N.eqb_refl. cbn [andb].
    unfold strip_opening. cbn [skipn].
    rewrite drop_letters_tag by assumption. rewrite N.eqb_refl.
    unfold strip_closing. rewrite rev_app_distr. cbn [FENCE rev app].
    rewrite N.eqb_refl. cbn [andb]. apply rev_involutive.
  - exact eq_refl.
  - unfold FENCE. repeat (rewrite ?rev_app_distr; cbn [rev app]).
    rewrite <- !app_assoc. exact eq_refl.
Qed.

Lemma fenced_reply_is_unwrapped_witness :
  cleaned_text (lit " " ++ (FENCE ++ lit "json" ++ NL :: (lit "{}" ++ [NL])
                            ++ FENCE) ++ [NL])
  = lit "{}" ++ [NL].
Proof.
  apply (fenced_reply_is_unwrapped (lit " ") (lit "json") (lit "{}" ++ [NL])
                                   [NL] eq_refl eq_refl eq_refl).
Defined.

(** X2: when the body holds a reply content that is not a string,
    [text.trim()] throws and the record ends in [error]; nothing is
    stored and the timestamp stays. *)
Theorem non_string_reply_is_an_error
        (rt : Runtime) (r : run) (student : value) (index : nat)
        (students final : list value) (resp : response) (data : value) :
  gradeOne rt r student index students = Ok final ->
  fetched r = Some resp -> json resp = Some data ->
  (forall t, reply_text data <> VStr t) ->
  record_field final index "status" = VStr (lit "error") /\
  record_field final index "result" = record_field students index "result" /\
  record_field final index "gradedAt"
  = record_field students index "gradedAt".
Proof.
  intros Hrun Hf Hj Hn. apply gradeOne_last in Hrun.
  rewrite Hf, Hj in Hrun. subst final.
  destruct (display_cases rt index (reply_text data) (now r)
              (before_last rt r index students))
    as [(t & Ht & _) | (H1 & H2)].
  - now apply Hn in Ht.
  - split; [exact H1|].
    split; rewrite H2, before_last_keep; auto; discriminate.
Qed.

(** A reply whose content is the number 42. *)
Definition numeric_reply : run :=
  {| ticks_waiting := 0;
     fetched :=
       Some {| http_status := 200;
               json := Some (VObj [("choices",
                               VArr [VObj [("message",
                                       VObj [("content", VNum 42)])]])]) |};
     ticks_reading := 0;
     now := lit "2024-05-01T10:00:00.000Z" |}.

Lemma non_string_reply_is_an_error_witness :
  exists final,
    gradeOne no_text_runtime numeric_reply (VObj []) 0
             [new_student (lit "a") (lit "b")] = Ok final /\
    record_field final 0 "status" = VStr (lit "error").
Proof.
  destruct (gradeOne no_text_runtime numeric_reply (VObj []) 0
              [new_student (lit "a") (lit "b")]) as [final|] eqn:E;
    [|discriminate].
  exists final. split; [reflexivity|].
  apply (non_string_reply_is_an_error no_text_runtime numeric_reply (VObj [])
           0 [new_student (lit "a") (lit "b")] E eq_refl eq_refl).
  intros t. discriminate.
Defined.

(** X3: [gradeOne] writes to the record at [index] only, and there only
    to [status], [elapsed], [result] and [gradedAt]: every other record,
    the name and the content of the graded one and, for an index inside
    the array, the number of records are as before. *)
Theorem gradeOne_touches_one_record
        (rt : Runtime) (r : run) (student : value) (index : nat)
        (students final : list value) :
  gradeOne rt r student index students = Ok final ->
  (forall j, j <> index ->
             nth j final VUndefined = nth j students VUndefined) /\
  (forall key, key <> "status" -> key <> "elapsed" ->
               key <> "result" -> key <> "gradedAt" ->
               record_field final index key
               = record_field students index key) /\
  (index < length students -> length final = length students).
Proof.
  intros Hrun. split; [|split].
  - intros j Hj. eapply gradeOne_other; eauto.
  - intros key Hs He Hr Hg. apply gradeOne_last_step in Hrun. subst final.
    rewrite last_step_keep, before_last_keep; auto.
  - intros Hi. rewrite (gradeOne_length _ _ _ _ _ Hrun). lia.
Qed.

Lemma gradeOne_touches_one_record_witness :
  exists final,
    gradeOne no_text_runtime numeric_reply (VObj []) 1
             [new_student (lit "a") (lit "x"); new_student (lit "b") (lit "y")]
    = Ok final /\
    nth 0 final VUndefined = new_student (lit "a") (lit "x") /\
    record_field final 1 "content" = VStr (lit "y").
Proof.
  destruct (gradeOne no_text_runtime numeric_reply (VObj []) 1
              [new_student (lit "a") (lit "x");
               new_student (lit "b") (lit "y")]) as [final|] eqn:E;
    [|discriminate].
  exists final. split; [reflexivity|].
  destruct (gradeOne_touches_one_record no_text_runtime numeric_reply
              (VObj []) 1 _ E) as (Ho & Hk & _).
  split.
  - apply (Ho 0). discriminate.
  - apply (Hk "content"); discriminate.
Defined.

(** X4: [updateStudent] at [index] gives the record the updated
    properties and leaves its others, leaves every other record, and an
    index past the end extends the array up to that index. *)
Theorem updateStudent_touches_one_record
        (index : nat) (fields : list (string * value)) (students : list value) :
  (forall key,
      record_field (updateStudent index (VObj fields) students) index key
      = if has_key fields key then lookup fields key
        else record_field students index key) /\
  (forall j, j <> index ->
             nth j (updateStudent index (VObj fields) students) VUndefined
             = nth j students VUndefined) /\
  length (updateStudent index (VObj fields) students)
  = Nat.max (length students) (S index).
Proof.
  split; [|split].
  - intros key. apply record_field_update.
  - intros j Hj. now apply updateStudent_other.
  - apply updateStudent_length.
Qed.

End LifecycleSpec.

(** ** The handlers around the three functions *)

Module AppFacts.
Import Str Values Splitter Grading App.
Import AggregatorFacts GradingFacts SplitterFacts LifecycleFacts.
Local Open Scope string_scope.
Local Open Scope list_scope.

(** *** [gradeAll] *)

Section Loop.
Variable rt : Runtime.
Variable runs : nat -> run.
Variable snapshot : list value.

Lemma gradeAll_loop_keeps : forall todo live final,
  gradeAll_loop rt runs snapshot todo live = Ok final ->
  forall j,
    ~ In j todo \/ truthy (record_field snapshot j "result") = true ->
    nth j final VUndefined = nth j live VUndefined.
Proof.
  induction todo as [|i rest IH]; intros live final Hrun j Hj.
  - simpl in Hrun. now inversion Hrun.
  - cbn [gradeAll_loop] in Hrun.
    destruct (get (nth i snapshot VUndefined) "result") as [v|] eqn:G;
      [|discriminate].
    cbn [bind] in Hrun. apply get_opt_get in G.
    assert (Hrest : ~ In j rest \/
                    truthy (record_field snapshot j "result") = true).
    { destruct Hj as [Hj|Hj]; [left|now right].
      intros Hin. apply Hj. now right. }
    destruct (truthy v) eqn:T; cbn [negb bind] in Hrun.
    + now apply IH.
    + destruct (gradeOne rt (runs i) (nth i snapshot VUndefined) i live)
        as [live'|] eqn:E; [|discriminate].
      cbn [bind] in Hrun. rewrite (IH _ _ Hrun j Hrest).
      eapply gradeOne_other; eauto.
      intros ->. destruct Hj as [Hj|Hj].
      * apply Hj. now left.
      * unfold record_field in Hj. rewrite G in Hj. congruence.
Qed.

Lemma gradeAll_loop_settles : forall todo live final,
  NoDup todo ->
  gradeAll_loop rt runs snapshot todo live = Ok final ->
  forall j, In j todo ->
            truthy (record_field snapshot j "result") = false ->
            settled final j.
Proof.
  induction todo as [|i rest IH]; intros live final Hnd Hrun j Hin Hj.
  - destruct Hin.
  - cbn [gradeAll_loop] in Hrun. inversion Hnd as [|? ? Hi Hnd']; subst.
    destruct (get (nth i snapshot VUndefined) "result") as [v|] eqn:G;
      [|discriminate].
    cbn [bind] in Hrun. apply get_opt_get in G.
    destruct Hin as [->|Hin].
    + unfold record_field in Hj. rewrite G in Hj. rewrite Hj in Hrun.
      cbn [negb] in Hrun.
      destruct (gradeOne rt (runs j) (nth j snapshot VUndefined) j live)
        as [live'|] eqn:E; [|discriminate].
      cbn [bind] in Hrun. unfold settled, record_field.
      rewrite (gradeAll_loop_keeps _ _ Hrun j (or_introl Hi)).
      eapply gradeOne_settled; eauto.
    + destruct (if negb (truthy v)
                then gradeOne rt (runs i) (nth i snapshot VUndefined) i live
                else Ok live) as [live'|]; [|discriminate].
      cbn [bind] in Hrun. eapply IH; eauto.
Qed.

Lemma gradeAll_loop_length : forall todo live final,
  gradeAll_loop rt runs snapshot todo live = Ok final ->
  (forall i, In i todo -> i < length live) ->
  length final = length live.
Proof.
  induction todo as [|i rest IH]; intros live final Hrun Hin.
  - simpl in Hrun. now inversion Hrun.
  - cbn [gradeAll_loop] in Hrun.
    destruct (get (nth i snapshot VUndefined) "result") as [v|];
      [|discriminate].
    cbn [bind] in Hrun.
    destruct (truthy v); cbn [negb bind] in Hrun.
    + apply IH; auto. intros k Hk. apply Hin. now right.
    + destruct (gradeOne rt (runs i) (nth i snapshot VUndefined) i live)
        as [live'|] eqn:E; [|discriminate].
      cbn [bind] in Hrun. apply gradeOne_length in E.
      assert (Hi : i < length live) by (apply Hin; now left).
      assert (El : length live' = length live) by lia.
      rewrite <- El. apply IH; auto.
      intros k Hk. rewrite El. apply Hin. now right.
Qed.

Lemma gradeAll_loop_runs : forall todo live,
  (forall i, In i todo -> exists fields,
                nth i snapshot VUndefined = VObj fields) ->
  exists final, gradeAll_loop rt runs snapshot todo live = Ok final.
Proof.
  induction todo as [|i rest IH]; intros live Hobj; [simpl; eauto|].
  cbn [gradeAll_loop].
  destruct (Hobj i (or_introl eq_refl)) as [fields Hi]. rewrite Hi.
  cbn [get bind].
  destruct (truthy (lookup fields "result")); cbn [negb bind].
  - apply IH. intros k Hk. apply Hobj. now right.
  - destruct (gradeOne_record rt (runs i) fields i live) as [live' E].
    rewrite E. cbn [bind]. apply IH. intros k Hk. apply Hobj. now right.
Qed.

End Loop.

(** *** The names given on upload *)

Lemma lit_inj : forall a b, lit a = lit b -> a = b.
Proof.
  induction a as [|x a IH]; intros [|y b] H; simpl in H;
    try discriminate; auto.
  inversion H as [[Hx Hr]]. f_equal; auto.
  rewrite <- (ascii_N_embedding x), <- (ascii_N_embedding y). now rewrite Hx.
Qed.

Lemma decimal_inj a b : decimal a = decimal b -> a = b.
Proof.
  unfold decimal. intros H. apply lit_inj in H.
  apply (f_equal DecimalString.NilEmpty.uint_of_string) in H.
  rewrite !DecimalString.NilEmpty.usu in H. inversion H as [H'].
  apply (f_equal Nat.of_uint) in H'.
  now rewrite !DecimalNat.Unsigned.of_to in H'.
Qed.

Definition name_of (s : value) : value := opt_get s "name".
Definition content_of (s : value) : value := opt_get s "content".

(** A record as made on upload or paste, not graded yet. *)
Definition fresh (s : value) : Prop :=
  opt_get s "result" = VNull /\
  opt_get s "status" = VStr (lit "idle") /\
  opt_get s "gradedAt" = VNull.

Lemma student_records_length file_name : forall texts idx,
  length (student_records file_name idx texts) = length texts.
Proof. induction texts; intros; simpl; auto. Qed.

Lemma student_records_contents file_name : forall texts idx,
  map content_of (student_records file_name idx texts) = map VStr texts.
Proof.
  induction texts as [|t texts IH]; intros idx; [reflexivity|].
  cbn [student_records map]. now rewrite IH.
Qed.

Lemma student_records_fresh file_name : forall texts idx,
  Forall fresh (student_records file_name idx texts).
Proof.
  induction texts as [|t texts IH]; intros idx; constructor; auto.
  repeat split.
Qed.

Lemma student_records_names file_name : forall texts idx x,
  In x (map name_of (student_records file_name idx texts)) ->
  exists j, idx <= j /\
            x = VStr (file_name ++ lit "-Student" ++ decimal (j + 1)).
Proof.
  induction texts as [|t texts IH]; intros idx x Hin; [destruct Hin|].
  destruct Hin as [<-|Hin].
  - exists idx. split; [lia|reflexivity].
  - destruct (IH _ _ Hin) as (j & Hj & ->). exists j. split; [lia|auto].
Qed.

Lemma student_records_name file_name : forall texts idx i,
  i < length texts ->
  opt_get (nth i (student_records file_name idx texts) VUndefined) "name"
  = VStr (file_name ++ lit "-Student" ++ decimal (idx + i + 1)).
Proof.
  induction texts as [|t texts IH]; intros idx i Hi; [simpl in Hi; lia|].
  destruct i as [|i].
  - rewrite Nat.add_0_r. reflexivity.
  - cbn [student_records nth]. rewrite IH by (simpl in Hi; lia).
    do 4 f_equal. lia.
Qed.

Lemma student_records_distinct file_name : forall texts idx,
  NoDup (map name_of (student_records file_name idx texts)).
Proof.
  induction texts as [|t texts IH]; intros idx; [constructor|].
  cbn [student_records map]. constructor; [|apply IH].
  intros Hin. apply student_records_names in Hin.
  destruct Hin as (j & Hj & E). unfold name_of in E. cbn in E.
  inversion E as [E']. apply app_inv_head in E'.
  apply (app_inv_head (lit "-Student")) in E'.
  apply decimal_inj in E'. lia.
Qed.

Lemma segments_exist text : 0 < length (splitStudentsFromText text).
Proof.
  rewrite splitStudentsFromText_unfold.
  destruct (Nat.leb (length (parts_of text)) 1) eqn:E; [simpl; lia|].
  apply Nat.leb_gt in E.
  destruct (parts_of text) as [|a [|b r]]; simpl in *; lia.
Qed.

(** *** The index shown *)

Definition in_range (v : view) : Prop :=
  currentIndex v < length (students v).

(** What the teacher can do to the list of students. *)
Inductive action :=
| Upload (file_name content : jsstring)
| Paste
| Edit (text : jsstring)
| Prev
| Next.

Definition act (v : view) (a : action) : view :=
  match a with
  | Upload file_name content => upload_scan file_name content
  | Paste => handlePasteStudent v
  | Edit text => edit_content text v
  | Prev => prev_click v
  | Next => next_click v
  end.

Lemma handlePasteStudent_in_range v :
  in_range v -> in_range (handlePasteStudent v).
Proof.
  unfold in_range, handlePasteStudent. cbn [students currentIndex].
  rewrite length_app. simpl. lia.
Qed.

Lemma edit_content_in_range text v :
  in_range v -> in_range (edit_content text v).
Proof.
  unfold in_range, edit_content. intros H.
  destruct (students v) eqn:E; [now rewrite E|].
  cbn [students currentIndex]. rewrite updateStudent_length. lia.
Qed.

Lemma prev_click_in_range v : in_range v -> in_range (prev_click v).
Proof.
  unfold in_range, prev_click. intros H.
  destruct (students v) eqn:E; [now rewrite E|].
  destruct (Nat.eqb (currentIndex v) 0); [now rewrite E|].
  simpl in *. lia.
Qed.

Lemma next_click_in_range v : students v <> [] -> in_range (next_click v).
Proof.
  unfold in_range, next_click. intros H.
  destruct (students v) as [|s l] eqn:E; [congruence|].
  destruct (Nat.eqb (currentIndex v) (length (s :: l) - 1)) eqn:Q.
  - apply Nat.eqb_eq in Q. rewrite E. simpl in *. lia.
  - cbn [students currentIndex]. simpl. lia.
Qed.

End AppFacts.

(** ** The handlers against the source *)

Module AppSpec.
Import Str Values Splitter Grading App.
Import AggregatorFacts GradingFacts SplitterFacts LifecycleFacts AppFacts.
Local Open Scope string_scope.
Local Open Scope list_scope.

(** A reply whose content is the text [ok], which is not JSON. *)
Definition prose : run :=
  {| ticks_waiting := 1;
     fetched :=
       Some {| http_status := 200;
               json := Some (VObj [("choices",
                               VArr [VObj [("message",
                                       VObj [("content",
                                              VStr (lit "ok"))])]])]) |};
     ticks_reading := 0;
     now := lit "2024-05-01T10:00:00.000Z" |}.

(** A record whose reply could not be parsed. *)
Definition unparsed : value :=
  VObj [("name", VStr (lit "a")); ("content", VStr (lit "x"));
        ("result", parse_error (VStr (lit "ok")));
        ("status", VStr (lit "displayed"))].

(** X5: [gradeAll] leaves every record that holds a result as it is;
    the object stored for a reply that could not be parsed counts as a
    result. *)
Theorem gradeAll_skips_graded_records
        (rt : Runtime) (runs : nat -> run) (apiKey answerKey : jsstring)
        (students final : list value) (i : nat) :
  gradeAll rt runs apiKey answerKey students = Ok final ->
  truthy (record_field students i "result") = true ->
  nth i final VUndefined = nth i students VUndefined.
Proof.
  unfold gradeAll. intros Hrun Hi.
  destruct (negb (nonempty apiKey) || negb (nonempty answerKey)
            || Nat.eqb (length students) 0).
  - now inversion Hrun.
  - eapply gradeAll_loop_keeps; eauto.
Qed.

Lemma gradeAll_skips_graded_records_witness :
  exists final,
    gradeAll no_text_runtime (fun _ => prose) (lit "k") (lit "key")
             [unparsed; new_student (lit "b") (lit "y")] = Ok final /\
    nth 0 final VUndefined = unparsed.
Proof.
  destruct (gradeAll no_text_runtime (fun _ => prose) (lit "k") (lit "key")
              [unparsed; new_student (lit "b") (lit "y")])
    as [final|] eqn:E; [|vm_compute in E; discriminate E].
  exists final. split; [reflexivity|].
  apply (@gradeAll_skips_graded_records no_text_runtime (fun _ => prose)
           (lit "k") (lit "key") [unparsed; new_student (lit "b") (lit "y")]
           final 0 E eq_refl).
Defined.

(** X6: with a key, an answer key and an array of objects, [gradeAll]
    returns, keeps the number of records, and every record that held no
    result ends in [displayed] or [error]. *)
Theorem gradeAll_settles_ungraded_records
        (rt : Runtime) (runs : nat -> run) (apiKey answerKey : jsstring)
        (students : list value) :
  nonempty apiKey = true -> nonempty answerKey = true ->
  Forall (fun s => exists fields, s = VObj fields) students ->
  exists final,
    gradeAll rt runs apiKey answerKey students = Ok final /\
    length final = length students /\
    forall i, i < length students ->
              truthy (record_field students i "result") = false ->
              record_field final i "status" = VStr (lit "displayed") \/
              record_field final i "status" = VStr (lit "error").
Proof.
  intros Hk Ha Hobj. unfold gradeAll. rewrite Hk, Ha. cbn [negb orb].
  destruct (Nat.eqb (length students) 0) eqn:Z.
  - exists students. split; [reflexivity|]. split; [reflexivity|].
    apply Nat.eqb_eq in Z. intros i Hi. lia.
  - destruct (gradeAll_loop_runs rt runs students
                (seq 0 (length students)) students) as [final Hrun].
    { intros i Hi. apply in_seq in Hi.
      rewrite Forall_forall in Hobj. apply Hobj. apply nth_In. lia. }
    exists final. split; [exact Hrun|]. split.
    + eapply gradeAll_loop_length; eauto.
      intros i Hi. apply in_seq in Hi. lia.
    + intros i Hi Hres.
      eapply gradeAll_loop_settles; eauto using seq_NoDup.
      apply in_seq. lia.
Qed.

Lemma gradeAll_settles_ungraded_records_witness :
  exists final,
    gradeAll no_text_runtime (fun _ => prose) (lit "k") (lit "key")
             [new_student (lit "a") (lit "x");
              new_student (lit "b") (lit "y")] = Ok final /\
    length final = 2.
Proof.
  destruct (@gradeAll_settles_ungraded_records no_text_runtime
              (fun _ => prose) (lit "k") (lit "key")
              [new_student (lit "a") (lit "x");
               new_student (lit "b") (lit "y")] eq_refl eq_refl)
    as (final & E & L & _).
  - constructor; [eexists; reflexivity|].
    constructor; [eexists; reflexivity|constructor].
  - exists final. split; assumption.
Defined.

(** X7: after Paste, what is typed into the submission box goes to the
    record at the index shown, which is the old index plus one; the
    pasted record is the last one, and it receives the text only when
    the last record was the one shown before the paste, and stays empty
    otherwise. *)
Theorem typed_text_after_paste (text : jsstring) (v : view) :
  record_field (students (edit_content text (handlePasteStudent v)))
               (currentIndex v + 1) "content" = VStr text /\
  record_field (students (edit_content text (handlePasteStudent v)))
               (length (students v)) "content"
  = VStr (if Nat.eqb (currentIndex v + 1) (length (students v))
          then text else []).
Proof.
  unfold edit_content.
  destruct (students (handlePasteStudent v)) as [|s l] eqn:E.
  { unfold handlePasteStudent in E. cbn in E.
    symmetry in E. now apply app_cons_not_nil in E. }
  rewrite <- E. clear E s l.
  cbn [students currentIndex handlePasteStudent]. unfold edited.
  split.
  - rewrite record_field_update. reflexivity.
  - destruct (Nat.eqb (currentIndex v + 1) (length (students v))) eqn:Q.
    + apply Nat.eqb_eq in Q. rewrite <- Q.
      rewrite record_field_update. reflexivity.
    + apply Nat.eqb_neq in Q. unfold record_field.
      rewrite updateStudent_other by congruence.
      rewrite nth_middle. reflexivity.
Qed.

(** X8: once the index shown points at a record it keeps doing so,
    whatever is uploaded, pasted, typed or clicked. *)
Theorem index_stays_in_range (actions : list action) (v : view) :
  currentIndex v < length (students v) ->
  currentIndex (fold_left act actions v)
  < length (students (fold_left act actions v)).
Proof.
  revert v. induction actions as [|a actions IH]; intros v H; [exact H|].
  cbn [fold_left]. apply IH. destruct a; cbn [act].
  - cbn [upload_scan students currentIndex].
    rewrite student_records_length. apply segments_exist.
  - now apply handlePasteStudent_in_range.
  - now apply edit_content_in_range.
  - now apply prev_click_in_range.
  - apply next_click_in_range. intros E. rewrite E in H. simpl in H. lia.
Qed.

Lemma index_stays_in_range_witness :
  currentIndex (fold_left act [Paste; Next; Edit (lit "x"); Prev]
                  (upload_scan (lit "a.pdf") (lit "text")))
  < length (students (fold_left act [Paste; Next; Edit (lit "x"); Prev]
                        (upload_scan (lit "a.pdf") (lit "text")))).
Proof.
  apply (@index_stays_in_range [Paste; Next; Edit (lit "x"); Prev]
           (upload_scan (lit "a.pdf") (lit "text"))).
  vm_compute. lia.
Defined.

(** X9: the upload of a scan sets the index shown to 0 and makes at
    least one record; the records hold the segments of the text in order,
    the i-th is named after the file, [-Student] and i, so that the names
    are pairwise different, and none is graded. *)
Theorem upload_scan_records (file_name content : jsstring) :
  currentIndex (upload_scan file_name content) = 0 /\
  0 < length (students (upload_scan file_name content)) /\
  map (fun s => opt_get s "content") (students (upload_scan file_name content))
  = map VStr (splitStudentsFromText content) /\
  (forall i, i < length (splitStudentsFromText content) ->
             record_field (students (upload_scan file_name content)) i "name"
             = VStr (file_name ++ lit "-Student" ++ decimal (i + 1))) /\
  NoDup (map (fun s => opt_get s "name")
             (students (upload_scan file_name content))) /\
  Forall (fun s => opt_get s "result" = VNull /\
                   opt_get s "status" = VStr (lit "idle") /\
                   opt_get s "gradedAt" = VNull)
         (students (upload_scan file_name content)).
Proof.
  cbn [upload_scan students currentIndex].
  split; [reflexivity|]. split; [|split; [|split; [|split]]].
  - rewrite student_records_length. apply segments_exist.
  - apply student_records_contents.
  - intros i Hi. unfold record_field.
    now rewrite student_records_name.
  - apply student_records_distinct.
  - apply student_records_fresh.
Qed.

(** X10: when the index shown is past the end of a list that is not
    empty, as after Paste on the empty list, a click on Grade with a key
    and an answer key changes no record: [gradeCurrent] returns, the
    promise of [gradeOne] is rejected with a [TypeError] raised on
    [student.name] before any update, and nothing handles the
    rejection. *)
Theorem gradeCurrent_past_the_end
        (rt : Runtime) (r : run) (apiKey answerKey : jsstring) (v : view) :
  nonempty apiKey = true -> nonempty answerKey = true ->
  students v <> [] -> length (students v) <= currentIndex v ->
  gradeCurrent rt r apiKey answerKey v
  = {| students_after := students v;
       unhandled_rejection := Some TypeError |}.
Proof.
  intros Hk Ha Hs Hi. unfold gradeCurrent. rewrite Hk, Ha. cbn [negb orb].
  destruct (Nat.eqb (length (students v)) 0) eqn:Z.
  - apply Nat.eqb_eq in Z. apply length_zero_iff_nil in Z. contradiction.
  - rewrite nth_overflow by assumption. reflexivity.
Qed.

Lemma gradeCurrent_past_the_end_witness :
  gradeCurrent no_text_runtime prose (lit "k") (lit "key")
               (handlePasteStudent {| students := []; currentIndex := 0 |})
  = {| students_after :=
         students (handlePasteStudent {| students := [];
                                         currentIndex := 0 |});
       unhandled_rejection := Some TypeError |}.
Proof.
  apply (@gradeCurrent_past_the_end no_text_runtime prose (lit "k") (lit "key")
           (handlePasteStudent {| students := []; currentIndex := 0 |})
           eq_refl eq_refl).
  - discriminate.
  - vm_compute. lia.
Defined.

End AppSpec.

(** ** Pass mark and letter grade *)

Module LetterFacts.
Import ZArith.
Import Str App.
Local Open Scope list_scope.

Lemma Prim2SF_90 :
  FloatOps.Prim2SF 90 = SpecFloat.S754_finite false 6333186975989760%positive (-46)%Z.
Proof. vm_compute. reflexivity. Qed.

Lemma Prim2SF_80 :
  FloatOps.Prim2SF 80 = SpecFloat.S754_finite false 5629499534213120%positive (-46)%Z.
Proof. vm_compute. reflexivity. Qed.

Lemma Prim2SF_70 :
  FloatOps.Prim2SF 70 = SpecFloat.S754_finite false 4925812092436480%positive (-46)%Z.
Proof. vm_compute. reflexivity. Qed.

(** Of two positive numbers with the same exponent, what is at least the
    larger is at least the smaller. *)
Lemma SFleb_finite_mono (m1 m2 : positive) (e : Z) (f : SpecFloat.spec_float) :
  (m1 <= m2)%positive ->
  SpecFloat.SFleb (SpecFloat.S754_finite false m2 e) f = true ->
  SpecFloat.SFleb (SpecFloat.S754_finite false m1 e) f = true.
Proof.
  intros Hm. unfold SpecFloat.SFleb, SpecFloat.SFcompare.
  destruct f as [s|s| |s m e']; auto.
  destruct s; auto.
  destruct (Z.compare e e'); auto.
  change (PosDef.Pos.compare_cont Eq m2 m) with (Pos.compare m2 m).
  change (PosDef.Pos.compare_cont Eq m1 m) with (Pos.compare m1 m).
  destruct (Pos.compare_spec m2 m); try discriminate; intros _;
    destruct (Pos.compare_spec m1 m); auto; lia.
Qed.

Lemma at_least_90_is_at_least_80 pct :
  PrimFloat.leb 90 pct = true -> PrimFloat.leb 80 pct = true.
Proof.
  rewrite !FloatAxioms.leb_spec, Prim2SF_90, Prim2SF_80.
  apply SFleb_finite_mono. lia.
Qed.

Lemma at_least_80_is_at_least_70 pct :
  PrimFloat.leb 80 pct = true -> PrimFloat.leb 70 pct = true.
Proof.
  rewrite !FloatAxioms.leb_spec, Prim2SF_80, Prim2SF_70.
  apply SFleb_finite_mono. lia.
Qed.

(** Only NaN differs from itself. *)
Lemma not_a_number pct :
  PrimFloat.is_nan pct = true -> FloatOps.Prim2SF pct = SpecFloat.S754_nan.
Proof.
  unfold PrimFloat.is_nan. rewrite FloatAxioms.eqb_spec.
  unfold SpecFloat.SFeqb, SpecFloat.SFcompare.
  destruct (FloatOps.Prim2SF pct) as [s|s| |s m e]; auto.
  - discriminate.
  - destruct s; discriminate.
  - rewrite Z.compare_refl.
    change (PosDef.Pos.compare_cont Eq m m) with (Pos.compare m m).
    rewrite Pos.compare_refl. destruct s; discriminate.
Qed.

End LetterFacts.

Module LetterSpec.
Import Str App LetterFacts.
Local Open Scope list_scope.

(** X11: with the pass mark at its default of 70, a percentage passes
    exactly when its letter grade is not F; a percentage that is not a
    number fails and is graded F. *)
Theorem default_pass_mark_agrees_with_letter (pct : float) :
  (passes 70 pct = true <-> getLetterGrade pct <> lit "F") /\
  (PrimFloat.is_nan pct = true ->
   passes 70 pct = false /\ getLetterGrade pct = lit "F").
Proof.
  assert (Hiff : passes 70 pct = true <-> getLetterGrade pct <> lit "F").
  { unfold passes, getLetterGrade. split.
    - intros H. rewrite H.
      destruct (PrimFloat.leb 90 pct); [discriminate|].
      destruct (PrimFloat.leb 80 pct); discriminate.
    - intros H. destruct (PrimFloat.leb 70 pct) eqn:E70; auto.
      destruct (PrimFloat.leb 80 pct) eqn:E80.
      { apply at_least_80_is_at_least_70 in E80. congruence. }
      destruct (PrimFloat.leb 90 pct) eqn:E90.
      { apply at_least_90_is_at_least_80 in E90. congruence. }
      now contradiction H. }
  split; [exact Hiff|].
  intros Hnan.
  assert (Hp : passes 70 pct = false).
  { unfold passes. rewrite FloatAxioms.leb_spec, Prim2SF_70.
    apply not_a_number in Hnan. now rewrite Hnan. }
  split; [exact Hp|].
  destruct (list_eq_dec N.eq_dec (getLetterGrade pct) (lit "F")) as [E|E];
    auto.
  apply Hiff in E. congruence.
Qed.

End LetterSpec.

(** ** The stored key and prompt *)

Module PersistenceSpec.
Import Str Persistence.
Local Open Scope string_scope.
Local Open Scope list_scope.

Lemma typed_last inputs k st :
  typed (inputs ++ [k]) st = snd (handleApiKeyChange k (typed inputs st)).
Proof. unfold typed. now rewrite fold_left_app. Qed.

(** X12: after any values typed into the key field, the stored key is
    the trimmed last value that was not blank, and what was stored before
    when there was none: clearing the field erases nothing.  No other
    stored item changes. *)
Theorem stored_key_is_last_nonblank_input
        (inputs : list jsstring) (st : storage) :
  typed inputs st "openai_api_key"
  = match find (fun k => nonempty (trim k)) (rev inputs) with
    | Some k => Some (trim k)
    | None => st "openai_api_key"
    end /\
  forall key, key <> "openai_api_key" -> typed inputs st key = st key.
Proof.
  induction inputs as [|k inputs IH] using rev_ind; [split; reflexivity|].
  destruct IH as [IHk IHo].
  rewrite typed_last, rev_app_distr. cbn [rev app find].
  unfold handleApiKeyChange. cbn [snd].
  destruct (nonempty (trim k)) eqn:E.
  - split; [reflexivity|].
    intros key Hkey. unfold setItem.
    replace (String.eqb "openai_api_key" key) with false
      by (symmetry; apply String.eqb_neq; congruence).
    now apply IHo.
  - split; [exact IHk|exact IHo].
Qed.

(** X13: at the next start the prompt shown is the one saved, and the
    initial prompt when the saved one is empty; saving the prompt leaves
    the stored key alone, and typing a key leaves the stored prompt
    alone. *)
Theorem saved_prompt_is_reloaded
        (initial gradingPrompt newKey : jsstring) (st : storage) :
  loaded_prompt initial (save_prompt gradingPrompt st)
  = (if nonempty gradingPrompt then gradingPrompt else initial) /\
  loaded_key (save_prompt gradingPrompt st) = loaded_key st /\
  loaded_prompt initial (snd (handleApiKeyChange newKey st))
  = loaded_prompt initial st.
Proof.
  split; [|split].
  - reflexivity.
  - reflexivity.
  - unfold handleApiKeyChange. cbn [snd].
    destruct (nonempty (trim newKey)); reflexivity.
Qed.

End PersistenceSpec.

(** ** Reading a row back *)

Module CsvFacts.
Import Str Values Csv.
Local Open Scope list_scope.

(** The cells of a line, read from inside a cell: [cur] holds the text
    of the cell read so far, last unit first. *)
Fixpoint read_cells (s : jsstring) (cur : jsstring)
  : option (list jsstring) :=
  match s with
  | [] => None
  | c :: s1 =>
      if (c =? QUOTE)%N then
        match s1 with
        | [] => Some [rev cur]
        | d :: s2 =>
            if (d =? QUOTE)%N then read_cells s2 (QUOTE :: cur)
            else if (d =? COMMA)%N then
              match s2 with
              | q :: s3 =>
                  if (q =? QUOTE)%N
                  then option_map (cons (rev cur)) (read_cells s3 [])
                  else None
              | [] => None
              end
            else None
        end
      else read_cells s1 (c :: cur)
  end.

Definition read_row (s : jsstring) : option (list jsstring) :=
  match s with
  | [] => Some []
  | q :: s' => if (q =? QUOTE)%N then read_cells s' [] else None
  end.

Lemma read_cells_text : forall t cur tail,
  read_cells (double_quotes t ++ QUOTE :: tail) cur
  = read_cells (QUOTE :: tail) (rev t ++ cur).
Proof.
  induction t as [|c t IH]; intros cur tail; [reflexivity|].
  cbn [double_quotes rev]. rewrite <- app_assoc. cbn [app].
  destruct (c =? QUOTE)%N eqn:E.
  - apply N.eqb_eq in E. subst c. cbn [app read_cells].
    rewrite N.eqb_refl.
    destruct (double_quotes t ++ QUOTE :: tail) eqn:D.
    + symmetry in D. now apply app_cons_not_nil in D.
    + rewrite <- D. apply IH.
  - cbn [app read_cells]. rewrite E. apply IH.
Qed.

Lemma row_line_cons t t' ts :
  row_line (t :: t' :: ts)
  = QUOTE :: double_quotes t ++ QUOTE :: COMMA :: row_line (t' :: ts).
Proof.
  unfold row_line. cbn [map join quote_cell app].
  now rewrite <- app_assoc.
Qed.

Lemma row_line_starts t ts :
  exists tail, row_line (t :: ts) = QUOTE :: tail.
Proof.
  destruct ts as [|t' ts].
  - eexists. reflexivity.
  - rewrite row_line_cons. eexists. reflexivity.
Qed.

Lemma read_row_line : forall ts, read_row (row_line ts) = Some ts.
Proof.
  intros [|t ts]; [reflexivity|]. revert t.
  induction ts as [|t' ts IH]; intros t.
  - unfold row_line. cbn [map join quote_cell read_row].
    rewrite N.eqb_refl, read_cells_text. cbn [read_cells].
    rewrite N.eqb_refl, app_nil_r, rev_involutive. reflexivity.
  - rewrite row_line_cons. cbn [read_row]. rewrite N.eqb_refl.
    rewrite read_cells_text.
    specialize (IH t').
    destruct (row_line_starts t' ts) as [tail E].
    rewrite E in IH |- *. cbn [read_row] in IH.
    rewrite N.eqb_refl in IH.
    cbn [read_cells]. rewrite N.eqb_refl.
    change (COMMA =? QUOTE)%N with false.
    change (COMMA =? COMMA)%N with true. cbv iota.
    rewrite IH, app_nil_r, rev_involutive. reflexivity.
Qed.

Lemma row_line_inj a b : row_line a = row_line b -> a = b.
Proof.
  intros H. apply (f_equal read_row) in H.
  rewrite !read_row_line in H. now inversion H.
Qed.

End CsvFacts.

Module CsvSpec.
Import Str Values Csv CsvFacts.
Local Open Scope string_scope.
Local Open Scope list_scope.

(** X14: two rows that [exportCSV] writes as the same line have the same
    cell texts, cell by cell: a comma, a double quote or a newline inside
    a cell never moves the border between two cells. *)
Theorem csv_row_keeps_cells_apart
        (rt : Runtime) (cells cells' : list value) (line : jsstring) :
  csv_row rt cells = Ok line -> csv_row rt cells' = Ok line ->
  cell_texts rt cells = cell_texts rt cells'.
Proof.
  unfold csv_row. intros H H'.
  destruct (cell_texts rt cells) as [ts|]; [|discriminate].
  destruct (cell_texts rt cells') as [ts'|]; [|discriminate].
  cbn [bind] in H, H'. inversion H as [E]. inversion H' as [E'].
  f_equal. apply row_line_inj. congruence.
Qed.

Lemma csv_row_keeps_cells_apart_witness :
  cell_texts no_text_runtime [VStr (lit "a,b"); VNull]
  = cell_texts no_text_runtime [VStr (lit "a,b"); VStr (lit "null")].
Proof.
  apply (@csv_row_keeps_cells_apart no_text_runtime
           [VStr (lit "a,b"); VNull] [VStr (lit "a,b"); VStr (lit "null")]
           (row_line [lit "a,b"; lit "null"]) eq_refl eq_refl).
Defined.

End CsvSpec.

(** ** The window of the desktop shell *)

Module ElectronSpec.
Import Electron.
Local Open Scope list_scope.

(** What every reachable state satisfies. *)
Definition tidy (s : shell) : Prop :=
  (ready s = false -> open s = [] /\ mainWindow s = RUndefined) /\
  (open s = [] \/ exists id, open s = [id] /\ mainWindow s = RWindow id).

Lemma launched_tidy : tidy launched.
Proof. split; [intros _; split; reflexivity|now left]. Qed.

Lemma step_tidy darwin s e : tidy s -> tidy (step darwin s e).
Proof.
  intros Hs. pose proof Hs as [Hr Ho]. unfold step.
  destruct (quit s); [exact Hs|].
  destruct e as [| |id].
  - destruct (ready s) eqn:R; [exact Hs|].
    destruct (Hr eq_refl) as [Hopen _].
    split; cbn; [discriminate|]. right. exists (created s).
    now rewrite Hopen.
  - destruct (mainWindow s) eqn:M; try exact Hs.
    assert (Hopen : open s = []).
    { destruct Ho as [Hopen|(id & _ & Hm)]; [exact Hopen|congruence]. }
    split; cbn.
    + intros R. destruct (Hr R) as [_ Hm]. congruence.
    + right. exists (created s). now rewrite Hopen.
  - destruct (existsb (Nat.eqb id) (open s)) eqn:X; [|exact Hs].
    destruct Ho as [Hopen|(w & Hopen & Hm)].
    { rewrite Hopen in X. discriminate. }
    rewrite Hopen in X. cbn in X. rewrite orb_false_r in X.
    apply Nat.eqb_eq in X. subst w.
    split; cbn.
    + intros R. destruct (Hr R) as [Hnil _]. congruence.
    + left. rewrite Hopen. unfold remove_window. cbn.
      now rewrite Nat.eqb_refl.
Qed.

Lemma run_events_tidy darwin events : tidy (run_events darwin events).
Proof.
  unfold run_events. generalize launched_tidy. generalize launched.
  induction events as [|e events IH]; intros s Hs; [exact Hs|].
  cbn [fold_left]. apply IH. now apply step_tidy.
Qed.

(** X15: whatever the order of start, activations and closed windows,
    at most one window is open, and [mainWindow] refers to the one that
    is; no window opens before the application is ready. *)
Theorem at_most_one_window (darwin : bool) (events : list event) :
  length (open (run_events darwin events)) <= 1 /\
  (forall id, In id (open (run_events darwin events)) ->
              mainWindow (run_events darwin events) = RWindow id) /\
  (ready (run_events darwin events) = false ->
   open (run_events darwin events) = []).
Proof.
  destruct (run_events_tidy darwin events) as [Hr Ho].
  split; [|split].
  - destruct Ho as [->|(id & -> & _)]; simpl; lia.
  - intros id Hin. destruct Ho as [E|(w & E & Hm)]; rewrite E in Hin.
    + destruct Hin.
    + destruct Hin as [<-|[]]. exact Hm.
  - intros R. now destruct (Hr R).
Qed.

End ElectronSpec.

(** ** Replies that do not have the expected shape *)

Module TotalsSpec.
Import Str Values Aggregator AggregatorFacts.
Local Open Scope string_scope.
Local Open Scope list_scope.

Section Throws.
Variable rt : Runtime.

Lemma sum_step_throw dflt key : forall items e,
  fold_left (fun acc q => sum <- acc ;;
                          x <- score_or rt dflt key q ;;
                          Ok (PrimFloat.add sum x))
            items (Throw e) = Throw e.
Proof. induction items as [|q items IH]; intros e; simpl; auto. Qed.

Lemma sum_items_unreadable dflt key items q :
  In q items -> q = VNull \/ q = VUndefined ->
  sum_items rt dflt key items = Throw TypeError.
Proof.
  unfold sum_items. generalize (Ok PrimFloat.zero : outcome float).
  induction items as [|x items IH]; intros acc Hin Hq; [destruct Hin|].
  cbn [fold_left]. destruct Hin as [->|Hin].
  - assert (E : (sum <- acc ;;
                 x <- score_or rt dflt key q ;;
                 Ok (PrimFloat.add sum x)) = Throw TypeError).
    { destruct acc as [a|[]]; [|reflexivity].
      destruct Hq as [->| ->]; reflexivity. }
    rewrite E. apply sum_step_throw.
  - now apply IH.
Qed.

End Throws.

(** X16: when [questions] is truthy and not an array, or an array that
    holds [null] or [undefined], [calculateTotals] throws a [TypeError]:
    the result panel, the summary table and the export all stop on such
    a reply. *)
Theorem malformed_questions_throw
        (rt : Runtime) (result questions : value) :
  truthy result = true ->
  get result "questions" = Ok questions ->
  truthy questions = true ->
  (forall items, questions = VArr items ->
                 In VNull items \/ In VUndefined items) ->
  calculateTotals rt result = Throw TypeError.
Proof.
  intros Hr Hq Ht Hbad. unfold calculateTotals.
  rewrite Hr, Hq. cbn [negb bind]. rewrite Ht. cbn [negb].
  assert (E : reduce_sum rt PrimFloat.zero "questionscore" questions
              = Throw TypeError).
  { destruct questions; try reflexivity.
    cbn [reduce_sum].
    destruct (Hbad _ eq_refl) as [H|H];
      eapply sum_items_unreadable; eauto. }
  now rewrite E.
Qed.

Lemma malformed_questions_throw_witness :
  calculateTotals no_text_runtime
                  (VObj [("questions", VStr (lit "none"))])
  = Throw TypeError.
Proof.
  apply (@malformed_questions_throw no_text_runtime
           (VObj [("questions", VStr (lit "none"))]) (VStr (lit "none"))
           eq_refl eq_refl eq_refl).
  intros items H. discriminate H.
Defined.

End TotalsSpec.

(** ** The shape of the segments *)

Module SegmentFacts.
Import Str Regex Splitter Delimiter RegexFacts SplitterFacts.
Local Open Scope list_scope.

Lemma drop_spaces_last x : is_space x = false ->
  forall l, exists w, drop_spaces (l ++ [x]) = w ++ [x].
Proof.
  intros Hx. induction l as [|a l IH]; cbn [app drop_spaces].
  - exists []. now rewrite Hx.
  - destruct (is_space a); [exact IH|]. now exists (a :: l).
Qed.

Lemma trim_starts s : head_rejected is_space (trim s).
Proof.
  unfold trim. pose proof (drop_spaces_starts s) as H.
  destruct (drop_spaces s) as [|x t]; [exact I|]. simpl in H.
  cbn [rev]. destruct (drop_spaces_last x H (rev t)) as [w ->].
  rewrite rev_app_distr. exact H.
Qed.

Lemma trim_ends s : head_rejected is_space (rev (trim s)).
Proof. unfold trim. rewrite rev_involutive. apply drop_spaces_starts. Qed.

(** A text with something in it and no white space at either end. *)
Definition trimmed (s : jsstring) : Prop := s <> [] /\ trim s = s.

Lemma trimmed_edges s :
  trimmed s ->
  exists x t y u, s = x :: t /\ is_space x = false /\
                  rev s = y :: u /\ is_space y = false.
Proof.
  intros [Hn Ht].
  pose proof (trim_starts s) as H1. pose proof (trim_ends s) as H2.
  rewrite Ht in H1, H2.
  destruct s as [|x t]; [congruence|].
  destruct (rev (x :: t)) as [|y u] eqn:E.
  - apply (f_equal (@length char)) in E. rewrite length_rev in E.
    discriminate.
  - exists x, t, y, u. auto.
Qed.

Lemma parts_trimmed text : Forall trimmed (parts_of text).
Proof.
  unfold parts_of. apply Forall_forall. intros p Hp.
  apply filter_In in Hp. destruct Hp as [Hin Hl].
  apply in_map_iff in Hin. destruct Hin as (x & <- & _).
  split.
  - intros E. rewrite E in Hl. discriminate.
  - apply trim_edges; [apply trim_starts|apply trim_ends].
Qed.

Lemma joined_trimmed a b :
  trimmed a -> trimmed b -> trimmed (a ++ NL :: b).
Proof.
  intros Ha Hb.
  destruct (trimmed_edges Ha) as (x & t & _ & _ & -> & Hx & _).
  destruct (trimmed_edges Hb) as (_ & _ & y & u & _ & _ & Er & Hy).
  split; [discriminate|].
  apply trim_edges.
  - exact Hx.
  - rewrite rev_app_distr. cbn [rev]. rewrite Er. exact Hy.
Qed.

Lemma pair_up_trimmed : forall n parts,
  length parts <= n -> Forall trimmed parts -> Forall trimmed (pair_up parts).
Proof.
  induction n as [|n IH]; intros parts Hn Hp.
  - destruct parts; [constructor|simpl in Hn; lia].
  - destruct parts as [|a [|b r]]; [constructor| |].
    + exact Hp.
    + inversion Hp as [|? ? Ha Hp']; subst.
      inversion Hp' as [|? ? Hb Hr]; subst.
      cbn [pair_up]. constructor.
      * destruct b as [|y b]; [now destruct Hb|].
        now apply joined_trimmed.
      * apply IH; auto. simpl in Hn. lia.
Qed.

Lemma pair_up_length : forall n parts,
  length parts <= n -> 2 * length (pair_up parts) <= length parts + 1.
Proof.
  induction n as [|n IH]; intros parts Hn.
  - destruct parts; simpl in *; lia.
  - destruct parts as [|a [|b r]]; simpl in *; try lia.
    specialize (IH r). lia.
Qed.

Lemma parts_bound text :
  length (parts_of text) <= 2 * delimiter_matches text + 1.
Proof.
  unfold parts_of.
  destruct (js_split_shape text) as (pre & ms & E & Hk & _).
  rewrite <- Hk.
  etransitivity; [apply filter_length_le|].
  rewrite length_map, E. cbn [length]. rewrite interleave_length. lia.
Qed.

End SegmentFacts.

Module SegmentSpec.
Import Str Regex Splitter Delimiter RegexFacts SplitterFacts SegmentFacts.
Local Open Scope string_scope.
Local Open Scope list_scope.

(** X17: unless the text is handed back whole, no segment is empty and
    none starts or ends with white space. *)
Theorem split_segments_are_trimmed (text : jsstring) :
  splitStudentsFromText text <> [text] ->
  Forall (fun segment => segment <> [] /\ trim segment = segment)
         (splitStudentsFromText text).
Proof.
  rewrite splitStudentsFromText_unfold.
  destruct (Nat.leb (length (parts_of text)) 1); [congruence|].
  intros _. apply (@pair_up_trimmed (length (parts_of text))); auto.
  apply parts_trimmed.
Qed.

Lemma split_segments_are_trimmed_witness :
  Forall (fun segment => segment <> [] /\ trim segment = segment)
         (splitStudentsFromText (lines [" a"; "Name:"; "b "; "Page 2"; " c "])).
Proof.
  apply (@split_segments_are_trimmed
           (lines [" a"; "Name:"; "b "; "Page 2"; " c "])).
  vm_compute. discriminate.
Defined.

(** X18: there are never more segments than delimiter lines plus one. *)
Theorem split_segments_bounded (text : jsstring) :
  length (splitStudentsFromText text) <= delimiter_matches text + 1.
Proof.
  rewrite splitStudentsFromText_unfold.
  destruct (Nat.leb (length (parts_of text)) 1); [simpl; lia|].
  pose proof (@pair_up_length (length (parts_of text)) (parts_of text)
                              (le_n _)).
  pose proof (parts_bound text). lia.
Qed.

End SegmentSpec.

(** ** What a finished call leaves in the record *)

Module OutcomeSpec.
Import Str Values Grading AggregatorFacts GradingFacts LifecycleFacts.
Local Open Scope string_scope.
Local Open Scope list_scope.

(** The counter of the interval callback after [n] ticks. *)
Definition seconds_after (n : nat) : float :=
  Nat.iter n (fun s => PrimFloat.add s PrimFloat.one) PrimFloat.zero.

Section Counter.
Variable rt : Runtime.

Lemma ticks_seconds index : forall n seconds students,
  fst (ticks rt index n seconds students)
  = Nat.iter n (fun f s => f (PrimFloat.add s PrimFloat.one)) (fun s => s)
             seconds.
Proof.
  induction n as [|n IH]; intros seconds students; [reflexivity|].
  cbn [ticks]. rewrite IH. reflexivity.
Qed.

Lemma iter_shift : forall n seconds,
  Nat.iter n (fun f s => f (PrimFloat.add s PrimFloat.one)) (fun s => s)
           seconds
  = Nat.iter n (fun s => PrimFloat.add s PrimFloat.one) seconds.
Proof.
  induction n as [|n IH]; intros seconds; [reflexivity|].
  rewrite Nat.iter_succ, IH, Nat.iter_succ_r. reflexivity.
Qed.

Lemma ticks_elapsed index : forall n seconds students,
  record_field students index "elapsed" = VNum seconds ->
  record_field (snd (ticks rt index n seconds students)) index "elapsed"
  = VNum (fst (ticks rt index n seconds students)).
Proof.
  induction n as [|n IH]; intros seconds students H; [exact H|].
  cbn [ticks]. apply IH. unfold tick_update.
  rewrite record_field_update. reflexivity.
Qed.

Lemma iter_add : forall a b seconds,
  Nat.iter b (fun s => PrimFloat.add s PrimFloat.one)
           (Nat.iter a (fun s => PrimFloat.add s PrimFloat.one) seconds)
  = Nat.iter (a + b) (fun s => PrimFloat.add s PrimFloat.one) seconds.
Proof.
  intros a b seconds. rewrite Nat.add_comm. symmetry. apply Nat.iter_add.
Qed.

Lemma before_last_elapsed r index students :
  record_field (before_last rt r index students) index "elapsed"
  = VNum (seconds_after (match fetched r with
                         | None => ticks_waiting r
                         | Some _ => ticks_waiting r + ticks_reading r
                         end)).
Proof.
  unfold before_last, seconds_after.
  set (s0 := updateStudent index _ students).
  assert (H0 : record_field s0 index "elapsed" = VNum PrimFloat.zero).
  { unfold s0. rewrite record_field_update. reflexivity. }
  pose proof (@ticks_elapsed index (ticks_waiting r) PrimFloat.zero s0 H0)
    as H1.
  destruct (fetched r) as [resp|].
  - rewrite ticks_elapsed.
    + rewrite !ticks_seconds, !iter_shift, iter_add. reflexivity.
    + rewrite record_field_update. exact H1.
  - rewrite H1, ticks_seconds, iter_shift. reflexivity.
Qed.

End Counter.



(** X20: when the call is over, [elapsed] holds the number of timer
    ticks since it began, counted through the wait for the answer and
    the reading of its body; without a tick it is 0. *)
Theorem elapsed_counts_the_ticks
        (rt : Runtime) (r : run) (student : value) (index : nat)
        (students final : list value) :
  gradeOne rt r student index students = Ok final ->
  record_field final index "elapsed"
  = VNum (seconds_after (match fetched r with
                         | None => ticks_waiting r
                         | Some _ => ticks_waiting r + ticks_reading r
                         end)).
Proof.
  intros Hrun. apply gradeOne_last_step in Hrun. subst final.
  rewrite last_step_keep by discriminate.
  apply before_last_elapsed.
Qed.

Lemma elapsed_counts_the_ticks_witness :
  exists final,
    gradeOne no_text_runtime AppSpec.prose (VObj []) 0
             [new_student (lit "a") (lit "b")] = Ok final /\
    record_field final 0 "elapsed" = VNum 1.
Proof.
  destruct (gradeOne no_text_runtime AppSpec.prose (VObj []) 0
              [new_student (lit "a") (lit "b")]) as [final|] eqn:E;
    [|vm_compute in E; discriminate E].
  exists final. split; [reflexivity|].
  apply (@elapsed_counts_the_ticks no_text_runtime AppSpec.prose (VObj []) 0
           [new_student (lit "a") (lit "b")] final E).
Defined.

End OutcomeSpec.

(** ** Texts with too few lines to hold a delimiter *)

Module LineFacts.
Import Str Regex Splitter Delimiter RegexFacts SplitterFacts Csv Pdf.
Local Open Scope list_scope.

(** The number of newlines in a text. *)
Definition newlines (s : jsstring) : nat := count_occ N.eq_dec s NL.

Lemma newlines_app a b : newlines (a ++ b) = newlines a + newlines b.
Proof. apply count_occ_app. Qed.

Lemma newlines_cons x s : newlines s <= newlines (x :: s).
Proof. unfold newlines. simpl. destruct (N.eq_dec x NL); lia. Qed.

Lemma newlines_nl s : newlines (NL :: s) = S (newlines s).
Proof. unfold newlines. simpl. now destruct (N.eq_dec NL NL). Qed.

(** A match spans two newlines. *)
Lemma exec_at_two_newlines s cap rest :
  exec_at s = Some (cap, rest) -> 2 <= newlines s.
Proof.
  intros H. apply exec_at_inv in H.
  destruct H as (ws1 & d & ws2 & -> & _).
  rewrite newlines_nl, !newlines_app, newlines_nl. lia.
Qed.

Lemma count_loop_few : forall n s, newlines s <= 1 -> count_loop n s = 0.
Proof.
  induction n as [|n IH]; intros [|x s'] H; try reflexivity.
  cbn [count_loop].
  destruct (exec_at (x :: s')) as [[cap rest]|] eqn:E.
  - apply exec_at_two_newlines in E. lia.
  - apply IH. pose proof (newlines_cons x s'). lia.
Qed.

Lemma few_newlines_whole text :
  newlines text <= 1 -> splitStudentsFromText text = [text].
Proof.
  intros H. rewrite splitStudentsFromText_unfold. unfold parts_of.
  rewrite js_split_no_match by now apply count_loop_few.
  cbn [map filter]. now destruct (has_length (trim text)).
Qed.

Lemma join_newlines items :
  Forall (fun item => ~ In NL item) items -> newlines (join SPACE items) = 0.
Proof.
  induction items as [|a items IH]; intros H; [reflexivity|].
  inversion H as [|? ? Ha Hr]; subst.
  assert (Ea : newlines a = 0) by now apply count_occ_not_In.
  destruct items as [|b items]; [exact Ea|].
  change (join SPACE (a :: b :: items))
    with (a ++ SPACE :: join SPACE (b :: items)).
  rewrite newlines_app, Ea. unfold newlines at 1. cbn [count_occ].
  destruct (N.eq_dec SPACE NL) as [E|_]; [discriminate E|].
  now apply IH.
Qed.

End LineFacts.

Module LineSpec.
Import Str Values Regex Splitter Grading App Csv Pdf LineFacts.
Local Open Scope string_scope.
Local Open Scope list_scope.

(** X21: a text with at most one newline is never split, whatever
    delimiter words it holds: a delimiter needs a line of its own,
    between two newlines. *)
Theorem text_of_two_lines_is_not_split (text : jsstring) :
  count_occ N.eq_dec text NL <= 1 -> splitStudentsFromText text = [text].
Proof. apply few_newlines_whole. Qed.

Lemma text_of_two_lines_is_not_split_witness :
  splitStudentsFromText (lines ["Student:"; "Name: Ann"])
  = [lines ["Student:"; "Name: Ann"]].
Proof.
  apply (@text_of_two_lines_is_not_split (lines ["Student:"; "Name: Ann"])).
  vm_compute. lia.
Defined.

(** X22: [readPdfFile] puts the items of a page on one line, so the
    upload of a one-page PDF whose items hold no newline gives exactly
    one record, named after the file, with the whole text. *)
Theorem one_page_pdf_is_one_student
        (file_name : jsstring) (items : list jsstring) :
  Forall (fun item => ~ In NL item) items ->
  students (upload_scan file_name (pdf_text [items]))
  = [new_student (file_name ++ lit "-Student1") (pdf_text [items])].
Proof.
  intros H. unfold upload_scan. cbn [students].
  rewrite few_newlines_whole; [reflexivity|].
  unfold pdf_text, page_line. cbn [fold_left app].
  rewrite newlines_app, (join_newlines H). reflexivity.
Qed.

Lemma one_page_pdf_is_one_student_witness :
  students (upload_scan (lit "scan.pdf")
              (pdf_text [[lit "Student:"; lit "Ann"; lit "Page 1"]]))
  = [new_student (lit "scan.pdf-Student1")
                 (lit "Student: Ann Page 1" ++ [NL])].
Proof.
  apply (@one_page_pdf_is_one_student (lit "scan.pdf")
           [lit "Student:"; lit "Ann"; lit "Page 1"]).
  repeat constructor; vm_compute; intuition discriminate.
Defined.

End LineSpec.
